(** * k2/csrc/context.h: Region growth, copy classification, host dispatch
      and the stream-override stack

    A shallow embedding of the parts of [k2/csrc/context.h] that carry
    behaviour: [GetMemoryCopyKind], [MemoryCopy], [GetContext],
    [Region::GetData], [Region::Extend] and the destructor, [Eval] /
    [Eval2] with their kernels, [CudaStreamOverride] / [With] and
    [ParallelRunner::NewStream].

    Conventions.
    - [size_t] and pointers are 64-bit: a value is a [Z] in [0, 2^64) and
      every arithmetic step that can leave that range is wrapped
      explicitly with [wrap].
    - [int32_t] loop counters are [Z]; on the host path a counter never
      exceeds its bound, so no step can overflow.
    - A call that can terminate the process ([K2_LOG(FATAL)], a failed
      [K2_CHECK]) returns [Fatal]; a loop that is still running when the
      fuel is used up returns [Timeout]. *)

From stdpp Require Import base gmap list.
From Stdlib Require Import ZArith Lia.

Local Open Scope Z_scope.

(** ** Outcomes of a call *)

Inductive result (A : Type) : Type :=
  | Ok (a : A)
  | Fatal
  | Timeout.
Arguments Ok {A} a.
Arguments Fatal {A}.
Arguments Timeout {A}.

Global Instance result_ret : MRet result := fun _ a => Ok a.
Global Instance result_bind : MBind result := fun _ _ k m =>
  match m with
  | Ok a => k a
  | Fatal => Fatal
  | Timeout => Timeout
  end.

(** ** Loops

    [while fuel cond body s] runs [while (cond) body] from state [s]. *)

Fixpoint while {S : Type} (fuel : nat) (cond : S → bool)
    (body : S → result S) (s : S) : result S :=
  match fuel with
  | O => Timeout
  | Datatypes.S fuel' =>
      if cond s then s' ← body s; while fuel' cond body s'
      else Ok s
  end.

(** ** Machine integers *)

Definition size_t_bits : Z := 64.
Definition wrap (z : Z) : Z := z mod 2 ^ size_t_bits.

(** [x << k] on a [size_t]. *)
Definition shl (x k : Z) : Z := wrap (Z.shiftl x k).

(** [#define kCudaStreamInvalid ((cudaStream_t)(~((size_t)0)))] *)
Definition kCudaStreamInvalid : Z := wrap (Z.lnot 0).

(** ** Devices and copy kinds *)

Inductive DeviceType : Type := kUnk | kCuda | kCpu.

Global Instance DeviceType_eq_dec : EqDecision DeviceType.
Proof. solve_decision. Defined.

Inductive MemoryCopyKind : Type :=
  | MemcpyHostToHost
  | MemcpyHostToDevice
  | MemcpyDeviceToHost
  | MemcpyDeviceToDevice
  | MemcpyUnknown.

Global Instance MemoryCopyKind_eq_dec : EqDecision MemoryCopyKind.
Proof. solve_decision. Defined.

(** Modelled from the spec: [k2/csrc/log.h] is not among the sources.
    Section 7 lists unsupported device pairs, failed checks and
    stack-discipline violations as fatal, process-terminating conditions,
    so [K2_LOG(FATAL)] is [Fatal] and a check that fails is [Fatal]. *)
Definition K2_LOG_FATAL {A : Type} : result A := Fatal.
Definition K2_CHECK (b : bool) : result unit := if b then Ok tt else Fatal.
Definition K2_DCHECK (b : bool) : result unit := K2_CHECK b.

(** ** The heap and the calls made on it

    A pointer is the base address of a block; the heap maps live base
    addresses to the bytes of their block.  [NULL] is address 0.  The
    list [events] records every allocator and copy call in program
    order. *)

Definition NULL : Z := 0.

Inductive Event : Type :=
  | EvAllocate (bytes data deleter_context : Z)
  | EvMemoryCopy (dst src count : Z) (kind : MemoryCopyKind)
  | EvDeallocate (data deleter_context : Z).

Record World : Type := mkWorld {
  heap : gmap Z (list Z);
  events : list Event;
}.

(** ** class Context

    The virtual members the embedded functions call.  [Allocate] returns
    the block and the deleter context; both allocator calls act on the
    heap and may be fatal. *)

Record Context : Type := mkContext {
  GetDeviceType : DeviceType;
  GetDeviceId : Z;
  GetCudaStream : Z;
  Allocate : Z → gmap Z (list Z) → result (Z * Z * gmap Z (list Z));
  Deallocate : Z → Z → gmap Z (list Z) → result (gmap Z (list Z));
}.

Definition Context_Allocate (c : Context) (bytes : Z) (w : World)
    : result (Z * Z * World) :=
  '(p, d, h) ← Allocate c bytes (heap w);
  Ok (p, d, mkWorld h (events w ++ [EvAllocate bytes p d])).

Definition Context_Deallocate (c : Context) (data deleter_context : Z)
    (w : World) : result World :=
  h ← Deallocate c data deleter_context (heap w);
  Ok (mkWorld h (events w ++ [EvDeallocate data deleter_context])).

(** [GetMemoryCopyKind], lines 152-166. *)
Definition GetMemoryCopyKind (src dst : Context) : result MemoryCopyKind :=
  if bool_decide (GetDeviceType src = kCpu) && bool_decide (GetDeviceType dst = kCpu)
  then Ok MemcpyHostToHost
  else if bool_decide (GetDeviceType src = kCpu) && bool_decide (GetDeviceType dst = kCuda)
  then Ok MemcpyHostToDevice
  else if bool_decide (GetDeviceType src = kCuda) && bool_decide (GetDeviceType dst = kCpu)
  then Ok MemcpyDeviceToHost
  else if bool_decide (GetDeviceType src = kCuda) && bool_decide (GetDeviceType dst = kCuda)
  then Ok MemcpyDeviceToDevice
  else K2_LOG_FATAL.

(** The CUDA runtime's [cudaMemcpy] on whole blocks: [count] bytes go from
    the start of block [src] to the start of block [dst].  A zero-length
    copy succeeds whatever the pointers are; a copy that names a block
    that is not live, or is longer than either block, is an error
    ([None]). *)
Definition cudaMemcpy (dst src count : Z) (h : gmap Z (list Z))
    : option (gmap Z (list Z)) :=
  if count =? 0 then Some h
  else
    match h !! src, h !! dst with
    | Some s, Some d =>
        if (count <=? Z.of_nat (length s)) && (count <=? Z.of_nat (length d))
        then Some (<[dst := take (Z.to_nat count) s ++ drop (Z.to_nat count) d]> h)
        else None
    | _, _ => None
    end.

(** [MemoryCopy], lines 168-179: the map [copy_kind_mappings] has the four
    known kinds as keys, so the lookup fails exactly on [MemcpyUnknown]. *)
Definition MemoryCopy (dst src count : Z) (kind : MemoryCopyKind) (w : World)
    : result World :=
  _ ← K2_CHECK (negb (bool_decide (kind = MemcpyUnknown)));
  match cudaMemcpy dst src count (heap w) with
  | Some h => Ok (mkWorld h (events w ++ [EvMemoryCopy dst src count kind]))
  | None => Fatal
  end.

(** ** struct Region *)

Record Region : Type := mkRegion {
  context : Context;
  data : Z;
  deleter_context : Z;
  num_bytes : Z;
  bytes_used : Z;
}.

(** [Region::Extend], lines 290-308. *)
Definition Extend (fuel : nat) (r : Region) (new_bytes_used : Z) (w : World)
    : result (Region * World) :=
  if new_bytes_used <=? bytes_used r then Ok (r, w)
  else
    '(r1, w1) ←
      (if num_bytes r <? new_bytes_used then
         let new_size := Z.max (wrap (num_bytes r * 2)) new_bytes_used in
         i ← while fuel (fun i => i <? new_size / 8) (fun i => Ok (shl i 3)) 4;
         i ← while fuel (fun i => i <? new_size) (fun i => Ok (shl i 1)) i;
         let new_size := i in
         '(new_data, new_deleter_context, w) ←
           Context_Allocate (context r) new_size w;
         kind ← GetMemoryCopyKind (context r) (context r);
         w ← MemoryCopy new_data (data r) (bytes_used r) kind w;
         w ← Context_Deallocate (context r) (data r) (deleter_context r) w;
         Ok (mkRegion (context r) new_data new_deleter_context new_size
               (bytes_used r), w)
       else Ok (r, w));
    Ok (mkRegion (context r1) (data r1) (deleter_context r1) (num_bytes r1)
          new_bytes_used, w1).

(** Modelled from the spec: the concrete Context classes and [NewRegion]
    are defined outside [context.h].  Section 4.1: [Allocate] of zero
    bytes returns a null pointer, otherwise a block of the requested
    size; [Deallocate] of a null pointer does nothing, otherwise it
    releases a block obtained from [Allocate].  Section 6: a new Region
    has [bytes_used == num_bytes].  This host context hands out the
    address after the highest live one and needs no deleter context; it
    is the instance the examples run on. *)
Definition next_free (h : gmap Z (list Z)) : Z :=
  1 + map_fold (fun p _ m => Z.max p m) 0 h.

Definition native_Allocate (bytes : Z) (h : gmap Z (list Z))
    : result (Z * Z * gmap Z (list Z)) :=
  if bytes =? 0 then Ok (NULL, NULL, h)
  else
    let p := next_free h in
    Ok (p, NULL, <[p := replicate (Z.to_nat bytes) 0]> h).

Definition native_Deallocate (p d : Z) (h : gmap Z (list Z))
    : result (gmap Z (list Z)) :=
  if p =? NULL then Ok h
  else
    match h !! p with
    | Some _ => Ok (delete p h)
    | None => Fatal
    end.

Definition CpuContext : Context :=
  mkContext kCpu (-1) kCudaStreamInvalid native_Allocate native_Deallocate.

Definition NewRegion (c : Context) (num_bytes : Z) (w : World)
    : result (Region * World) :=
  '(p, d, w) ← Context_Allocate c num_bytes w;
  Ok (mkRegion c p d num_bytes num_bytes, w).

(** The first [bytes_used] bytes of the Region's block. *)
Definition block_of (h : gmap Z (list Z)) (p : Z) : list Z :=
  default [] (h !! p).

Definition contents (w : World) (r : Region) : list Z :=
  take (Z.to_nat (bytes_used r)) (block_of (heap w) (data r)).

(** ** Eval and Eval2

    A closure acts on the host state [S].  A kernel launch is
    asynchronous: it only appends a record to [launched].  A launch
    that the runtime rejects appends nothing and fails the check of
    [cudaGetLastError] that follows it.  [Eval] is a
    reserved word here, so the overloads of [Eval] are [Eval_stream],
    [Eval_ctx], [Eval_data] and [Eval_data_ctx]. *)

Inductive Launch : Type :=
  | LaunchEvalLambda (stream grid_size block_size n : Z)
  | LaunchEvalLambdaData (stream grid_size block_size n : Z)
  | LaunchEvalLambda2 (stream grid_x grid_y block_x block_y m n : Z).

Record Exec (S : Type) : Type := mkExec {
  host_state : S;
  launched : list Launch;
}.
Arguments mkExec {S} _ _.
Arguments host_state {S} _.
Arguments launched {S} _.

(** The CUDA runtime's limits on a launch [<<<grid, block, 0, stream>>>]
    with [grid = (grid_x, grid_y, 1)] and [block = (block_x, block_y, 1)]:
    at most [2^31 - 1] blocks along x and 65535 along y, at most 1024
    threads along x and along y and 1024 threads in a block, and no
    empty dimension.  A launch outside them is rejected, and
    [cudaGetLastError] reports it. *)
Definition launch_config_ok (grid_x grid_y block_x block_y : Z) : bool :=
  (1 <=? grid_x) && (grid_x <=? 2 ^ 31 - 1) &&
  (1 <=? grid_y) && (grid_y <=? 65535) &&
  (1 <=? block_x) && (block_x <=? 1024) &&
  (1 <=? block_y) && (block_y <=? 1024) &&
  (block_x * block_y <=? 1024).

(** Modelled from the spec: [K2_DCHECK_CUDA_ERROR] is a macro of
    [k2/csrc/log.h], which is not among the sources.  Section 7 makes a
    device-level failure fatal; [ok] says that no error was reported. *)
Definition K2_DCHECK_CUDA_ERROR (ok : bool) : result unit := K2_DCHECK ok.

(** [NumBlocks], lines 388-391; [/] on [int32_t] truncates. *)
Definition NumBlocks (size block_size : Z) : Z :=
  Z.quot (size + block_size - 1) block_size.

(** [Eval(cudaStream_t, int32_t, LambdaT&)], lines 395-411. *)
Definition Eval_stream {S : Type} (fuel : nat) (stream : Z) (n : Z)
    (lambda : Z → S → S) (e : Exec S) : result (Exec S) :=
  if n <=? 0 then Ok e
  else if stream =? kCudaStreamInvalid then
    '(_, s) ← while fuel (fun '(i, _) => i <? n)
                (fun '(i, s) => Ok (i + 1, lambda i s)) (0, host_state e);
    Ok (mkExec s (launched e))
  else
    let block_size := 256 in
    let grid_size := NumBlocks n block_size in
    let err := launch_config_ok grid_size 1 block_size 1 in
    _ ← K2_DCHECK_CUDA_ERROR err;
    Ok (mkExec (host_state e)
          (launched e ++ [LaunchEvalLambda stream grid_size block_size n])).

(** [Eval(ContextPtrType, int32_t, LambdaT&)], lines 413-418. *)
Definition Eval_ctx {S : Type} (fuel : nat) (c : Context) (n : Z)
    (lambda : Z → S → S) (e : Exec S) : result (Exec S) :=
  Eval_stream fuel (GetCudaStream c) n lambda e.

(** [data[i] = v]; a write outside the buffer has no defined behaviour
    and gets no successor state. *)
Definition store {T : Type} (data : list T) (i : Z) (v : T) : result (list T) :=
  if (0 <=? i) && (i <? Z.of_nat (length data))
  then Ok (<[Z.to_nat i := v]> data)
  else Fatal.

(** [Eval(cudaStream_t, T*, int32_t, LambdaT&)], lines 422-439. *)
Definition Eval_data {S T : Type} (fuel : nat) (stream : Z) (data : list T)
    (n : Z) (lambda : Z → S → T * S) (e : Exec S)
    : result (Exec S * list T) :=
  if n <=? 0 then Ok (e, data)
  else if stream =? kCudaStreamInvalid then
    '(_, (s, data)) ← while fuel (fun '(i, _) => i <? n)
                (fun '(i, (s, data)) =>
                   let '(v, s) := lambda i s in
                   data ← store data i v;
                   Ok (i + 1, (s, data)))
                (0, (host_state e, data));
    Ok (mkExec s (launched e), data)
  else
    let block_size := 256 in
    let grid_size := NumBlocks n block_size in
    let err := launch_config_ok grid_size 1 block_size 1 in
    _ ← K2_DCHECK_CUDA_ERROR err;
    Ok (mkExec (host_state e)
          (launched e ++ [LaunchEvalLambdaData stream grid_size block_size n]),
        data).

(** One iteration [data[i] = lambda(i)] with [i] inside the buffer. *)
Definition write_step {S T : Type} (lambda : Z → S → T * S) (i : Z)
    (sd : S * list T) : S * list T :=
  let '(v, s) := lambda i sd.1 in (s, <[Z.to_nat i := v]> sd.2).

(** [Eval(ContextPtrType, T*, int32_t, LambdaT&)], lines 441-446. *)
Definition Eval_data_ctx {S T : Type} (fuel : nat) (c : Context)
    (data : list T) (n : Z) (lambda : Z → S → T * S) (e : Exec S)
    : result (Exec S * list T) :=
  Eval_data fuel (GetCudaStream c) data n lambda e.

(** [Eval2(cudaStream_t, int32_t, int32_t, LambdaT&)], lines 457-479. *)
Definition Eval2 {S : Type} (fuel : nat) (stream : Z) (m n : Z)
    (lambda : Z → Z → S → S) (e : Exec S) : result (Exec S) :=
  if (m <=? 0) || (n <=? 0) then Ok e
  else if stream =? kCudaStreamInvalid then
    '(_, s) ← while fuel (fun '(i, _) => i <? m)
                (fun '(i, s) =>
                   '(_, s) ← while fuel (fun '(j, _) => j <? n)
                               (fun '(j, s) => Ok (j + 1, lambda i j s)) (0, s);
                   Ok (i + 1, s))
                (0, host_state e);
    Ok (mkExec s (launched e))
  else
    let err := launch_config_ok (NumBlocks n 16) (NumBlocks m 16) 16 16 in
    _ ← K2_DCHECK_CUDA_ERROR err;
    Ok (mkExec (host_state e)
          (launched e ++
             [LaunchEvalLambda2 stream (NumBlocks n 16) (NumBlocks m 16)
                16 16 m n])).

(** [Eval2(ContextPtrType, int32_t, int32_t, LambdaT&)], lines 481-486. *)
Definition Eval2_ctx {S : Type} (fuel : nat) (c : Context) (m n : Z)
    (lambda : Z → Z → S → S) (e : Exec S) : result (Exec S) :=
  Eval2 fuel (GetCudaStream c) m n lambda e.

(** Closures that record their calls, for statements about which calls
    are made and in which order. *)
Definition traced (i : Z) (log : list Z) : list Z := log ++ [i].
Definition traced_value {T : Type} (f : Z → T) (i : Z) (log : list Z)
    : T * list Z := (f i, log ++ [i]).
Definition traced2 (i j : Z) (log : list (Z * Z)) : list (Z * Z) :=
  log ++ [(i, j)].

(** The index pairs of [0, m) x [0, n), second index varying fastest. *)
Definition row_major (m n : Z) : list (Z * Z) :=
  i ← seqZ 0 m; (fun j => (i, j)) <$> seqZ 0 n.

(** ** class CudaStreamOverride, lines 491-513

    [stack_] is the [std::vector]: [push_back] appends, [back] is the
    last element. *)

Record CudaStreamOverride : Type := mkOverride {
  stream_override_ : Z;
  stack_ : list Z;
}.

(** [CudaStreamOverride() : stream_override_(0x0) {}] *)
Definition CudaStreamOverride_init : CudaStreamOverride := mkOverride 0 [].

Definition OverrideStream (o : CudaStreamOverride) (stream : Z) : Z :=
  if negb (stream_override_ o =? 0) && negb (stream =? kCudaStreamInvalid)
  then stream_override_ o
  else stream.

Definition Push (o : CudaStreamOverride) (stream : Z) : CudaStreamOverride :=
  mkOverride stream (stack_ o ++ [stream]).

Definition Pop (o : CudaStreamOverride) (stream : Z)
    : result CudaStreamOverride :=
  _ ← K2_DCHECK (negb (bool_decide (stack_ o = [])));
  _ ← K2_DCHECK (bool_decide (last (stack_ o) = Some stream));
  Ok (mkOverride (stream_override_ o) (removelast (stack_ o))).

(** class [With], lines 517-526: the constructor pushes on
    [g_stream_override], the destructor pops.  The thread-local
    [g_stream_override] is the state passed along. *)
Record With : Type := mkWith { stream_ : Z }.

Definition With_enter (stream : Z) (g : CudaStreamOverride)
    : With * CudaStreamOverride :=
  (mkWith stream, Push g stream).

Definition With_exit (w : With) (g : CudaStreamOverride)
    : result CudaStreamOverride :=
  Pop g (stream_ w).

(** Two nested scopes, [{ With a(A); { With b(B); } }]. *)
Definition nested_scopes (A B : Z) (g : CudaStreamOverride)
    : result CudaStreamOverride :=
  let '(a, g) := With_enter A g in
  let '(b, g) := With_enter B g in
  g ← With_exit b g;
  With_exit a g.

(** ** Powers of two *)

Definition is_pow2 (c : Z) : Prop := ∃ k, 0 ≤ k ∧ c = 2 ^ k.

(** [c] is the least power of two that is at least [x]. *)
Definition least_pow2_ge (x c : Z) : Prop :=
  is_pow2 c ∧ x ≤ c ∧ ∀ c', is_pow2 c' → x ≤ c' → c ≤ c'.

(** The capacity [Extend] reaches for a request of [x] bytes. *)
Definition round_up_from_4 (x : Z) : Z := 2 ^ Z.max 2 (Z.log2_up x).

(** ** The capacity search of [Extend] in isolation

    [capacity_search fuel x] is the two loops of lines 294-297 run on
    [new_size = x]; [Extend_realloc_unfold] rewrites [Extend] to it. *)

Definition capacity_search (fuel : nat) (x : Z) : result Z :=
  i ← while fuel (fun i => i <? x / 8) (fun i => Ok (shl i 3)) 4;
  while fuel (fun i => i <? x) (fun i => Ok (shl i 1)) i.

(** Invariant of the first loop: [i = 2^k], and past the start [i < x]. *)
Definition coarse_inv (x i : Z) : Prop :=
  ∃ k, 2 ≤ k ≤ 63 ∧ i = 2 ^ k ∧ (k = 2 ∨ 2 ^ k < x).

(** Invariant of the second loop: [i = 2^k], and past the start the
    previous power is below [x]. *)
Definition fine_inv (x i : Z) : Prop :=
  ∃ k, 2 ≤ k ≤ 63 ∧ i = 2 ^ k ∧ (k = 2 ∨ 2 ^ (k - 1) < x).

Definition search_variant (i : Z) : nat := Z.to_nat (64 - Z.log2 i).

(** ** What [Extend] needs from the heap and from its Context *)

(** The Region's fields are in range and its block is live with the
    recorded capacity; a Region of zero bytes holds the null pointer. *)
Definition Region_valid (w : World) (r : Region) : Prop :=
  0 ≤ bytes_used r ≤ num_bytes r ∧
  ((data r = NULL ∧ num_bytes r = 0) ∨
   (data r ≠ NULL ∧
    ∃ blk, heap w !! data r = Some blk ∧ Z.of_nat (length blk) = num_bytes r)).

(** This call of [Allocate] succeeds with the fresh block [blk] at [p]. *)
Definition Allocate_returns (c : Context) (bytes : Z) (h : gmap Z (list Z))
    (p d : Z) (blk : list Z) : Prop :=
  Allocate c bytes h = Ok (p, d, <[p := blk]> h) ∧
  p ≠ NULL ∧ h !! p = None ∧ Z.of_nat (length blk) = bytes.

(** [Deallocate] accepts the pair [(p, d)] on every heap where [p] is null
    or live, and leaves every other block alone. *)
Definition Deallocate_releases (c : Context) (p d : Z) : Prop :=
  ∀ h, p = NULL ∨ is_Some (h !! p) →
    ∃ h', Deallocate c p d h = Ok h' ∧ ∀ q, q ≠ p → h' !! q = h !! q.

(** ** Example states *)

Definition empty_world : World := mkWorld ∅ [].

(** A host Region of ten bytes holding 11, ..., 20 at address 1. *)
Definition ten_bytes : list Z := [11; 12; 13; 14; 15; 16; 17; 18; 19; 20].
Definition world10 : World := mkWorld {[ 1 := ten_bytes ]} [].
Definition region10 : Region := mkRegion CpuContext 1 NULL 10 10.

(** A host Region created with zero bytes. *)
Definition region0 : Region := mkRegion CpuContext NULL NULL 0 0.

(** ** Further members of [context.h] *)

(** [Region::GetData<T, d>], lines 275-279: with [d != kUnk] the device
    of the Context is checked first. *)
Definition GetData (d : DeviceType) (r : Region) : result Z :=
  _ ← (if negb (bool_decide (d = kUnk))
       then K2_CHECK (bool_decide (d = GetDeviceType (context r)))
       else Ok tt);
  Ok (data r).

(** [~Region], line 310. *)
Definition Region_destroy (r : Region) (w : World) : result World :=
  Context_Deallocate (context r) (data r) (deleter_context r) w.

(** [GetContext(first, rest...)], lines 230-241.  Each argument is
    represented by the Context its [Context()] member returns.  The pure
    virtual [Context::IsCompatible] is the parameter [IsCompatible]. *)
Fixpoint GetContext (IsCompatible : Context → Context → bool)
    (first : Context) (rest : list Context) : result Context :=
  match rest with
  | [] => Ok first
  | second :: rest' =>
      ans1 ← Ok first;
      ans2 ← GetContext IsCompatible second rest';
      _ ← K2_CHECK (IsCompatible ans1 ans2);
      Ok ans1
  end.

(** The kernels [eval_lambda], lines 361-375, and [eval_lambda2], lines
    377-386, as run by one thread: the list of closure calls the thread
    makes, which is empty or a single call. *)
Definition eval_lambda (blockIdx_x blockDim_x threadIdx_x : Z) (n : Z)
    : list Z :=
  let i := blockIdx_x * blockDim_x + threadIdx_x in
  if i <? n then [i] else [].


(** The closure calls of all threads of a launch
    [<<<grid_size, block_size, 0, stream>>>], listed thread by thread.
    The threads run in no fixed order; only the calls as a collection
    are meaningful. *)
Definition Launch_calls (l : Launch) : list Z :=
  match l with
  | LaunchEvalLambda _ grid_size block_size n
  | LaunchEvalLambdaData _ grid_size block_size n =>
      b ← seqZ 0 grid_size; t ← seqZ 0 block_size;
      eval_lambda b block_size t n
  | LaunchEvalLambda2 _ _ _ _ _ _ _ => []
  end.


(** [INT32_MAX], the largest [int32_t]. *)
Definition INT32_MAX : Z := 2 ^ 31 - 1.

(** [ParallelRunner::NewStream], lines 556-559. *)
Record ParallelRunner : Type := mkParallelRunner { c_ : Context }.

Definition NewStream (pr : ParallelRunner) : Z := kCudaStreamInvalid.

(** Scopes [{ With w1(t1); { With w2(t2); ... } }] nested to any depth. *)
Fixpoint nested_With (tokens : list Z) (g : CudaStreamOverride)
    : result CudaStreamOverride :=
  match tokens with
  | [] => Ok g
  | t :: rest =>
      let '(w, g) := With_enter t g in
      g ← nested_With rest g;
      With_exit w g
  end.

(** For the examples: a compatibility test by device type, and an
    accelerator Context on stream 1 with the allocator of [CpuContext]. *)
Definition same_device (a b : Context) : bool :=
  bool_decide (GetDeviceType a = GetDeviceType b).

Definition CudaContext : Context :=
  mkContext kCuda 0 1 native_Allocate native_Deallocate.

(** * Properties *)

(** ** Loops: invariants, variants and stuck states *)

Section while_rules.
Context {S : Type} (cond : S → bool) (body : S → result S).

(** An invariant with a decreasing variant: the loop ends, in a state
    that satisfies the invariant and falsifies the condition. *)
Lemma while_variant (P : S → Prop) (m : S → nat) :
  (∀ s, P s → cond s = true →
        ∃ s', body s = Ok s' ∧ P s' ∧ (m s' < m s)%nat) →
  ∀ fuel s, P s → (m s < fuel)%nat →
    ∃ s', while fuel cond body s = Ok s' ∧ P s' ∧ cond s' = false.
Proof.
  intros Hstep fuel. induction fuel as [|fuel IH]; intros s HP Hm; [lia|].
  simpl. destruct (cond s) eqn:Hc.
  - destruct (Hstep s HP Hc) as (s' & -> & HP' & Hlt). simpl.
    apply IH; [done | lia].
  - by exists s.
Qed.

(** An invariant under which the condition always holds: no amount of
    fuel ends the loop. *)
Lemma while_stuck (P : S → Prop) :
  (∀ s, P s → cond s = true ∧ ∃ s', body s = Ok s' ∧ P s') →
  ∀ fuel s, P s → while fuel cond body s = Timeout.
Proof.
  intros Hstep fuel. induction fuel as [|fuel IH]; intros s HP; [done|].
  simpl. destruct (Hstep s HP) as (-> & s' & -> & HP'). simpl. by apply IH.
Qed.

(** Whatever the fuel, a loop that returns does so in a state that
    falsifies the condition and satisfies every invariant. *)
Lemma while_Ok_inv (P : S → Prop) :
  (∀ s s', P s → cond s = true → body s = Ok s' → P s') →
  ∀ fuel s s', P s → while fuel cond body s = Ok s' →
    P s' ∧ cond s' = false.
Proof.
  intros Hstep fuel. induction fuel as [|fuel IH]; intros s s' HP; [done|].
  simpl. destruct (cond s) eqn:Hc.
  - destruct (body s) as [s1| |] eqn:Hb; simpl; try done.
    apply IH. by eapply Hstep.
  - intros [= <-]. done.
Qed.

(** More fuel does not change a result. *)
Lemma while_fuel_mono fuel fuel' s s' :
  (fuel ≤ fuel')%nat →
  while fuel cond body s = Ok s' → while fuel' cond body s = Ok s'.
Proof.
  revert fuel' s. induction fuel as [|fuel IH]; intros fuel' s Hle; [done|].
  destruct fuel' as [|fuel']; [lia|]. simpl.
  destruct (cond s); [|done].
  destruct (body s) as [s1| |]; simpl; try done.
  apply IH. lia.
Qed.
End while_rules.

(** ** Arithmetic of the capacity search *)

Lemma size_t_modulus : 2 ^ size_t_bits = 18446744073709551616.
Proof. reflexivity. Qed.

Lemma wrap_small z : 0 ≤ z < 2 ^ 64 → wrap z = z.
Proof. intros H. unfold wrap, size_t_bits. by apply Z.mod_small. Qed.

Lemma shl_pow2 k j : 0 ≤ k → 0 ≤ j → k + j ≤ 63 → shl (2 ^ k) j = 2 ^ (k + j).
Proof.
  intros Hk Hj Hkj. unfold shl. rewrite Z.shiftl_mul_pow2 by done.
  rewrite <- Z.pow_add_r by done. apply wrap_small. split.
  - apply Z.pow_nonneg. lia.
  - apply Z.pow_lt_mono_r; lia.
Qed.

Lemma shl_0 j : 0 ≤ j → shl 0 j = 0.
Proof. intros Hj. unfold shl. by rewrite Z.shiftl_0_l. Qed.

Lemma shl_pow2_63 : shl (2 ^ 63) 1 = 0.
Proof. reflexivity. Qed.

Lemma pow2_lt_exp a b : 0 ≤ a → 0 ≤ b → 2 ^ a < 2 ^ b → a < b.
Proof. intros Ha Hb H. apply (Z.pow_lt_mono_r_iff 2); lia. Qed.

Lemma pow2_le_exp a b : 0 ≤ a → 0 ≤ b → 2 ^ a ≤ 2 ^ b → a ≤ b.
Proof. intros Ha Hb H. apply (Z.pow_le_mono_r_iff 2); lia. Qed.

Lemma round_up_from_4_pow2 x : is_pow2 (round_up_from_4 x).
Proof. exists (Z.max 2 (Z.log2_up x)). split; [lia | done]. Qed.

Lemma round_up_from_4_ge_4 x : 4 ≤ round_up_from_4 x.
Proof.
  unfold round_up_from_4. change 4 with (2 ^ 2).
  apply Z.pow_le_mono_r; lia.
Qed.

Lemma round_up_from_4_ge x : x ≤ round_up_from_4 x.
Proof.
  unfold round_up_from_4. destruct (decide (1 < x)) as [Hx|Hx].
  - pose proof (Z.log2_up_spec x Hx) as [_ Hle].
    etrans; [exact Hle|]. apply Z.pow_le_mono_r; lia.
  - pose proof (Z.pow_pos_nonneg 2 (Z.max 2 (Z.log2_up x))). lia.
Qed.

(** [round_up_from_4 x] is the least power of two that is at least [x]
    and at least 4. *)
Lemma round_up_from_4_least x : least_pow2_ge (Z.max 4 x) (round_up_from_4 x).
Proof.
  split; [apply round_up_from_4_pow2|]. split.
  - pose proof (round_up_from_4_ge x). pose proof (round_up_from_4_ge_4 x). lia.
  - intros c' (k & Hk & ->) Hle. unfold round_up_from_4.
    apply Z.pow_le_mono_r; [lia|].
    assert (2 ≤ k) by (apply pow2_le_exp; [lia | done | simpl; lia]).
    destruct (decide (0 < x)) as [Hx|Hx].
    + assert (Z.log2_up x ≤ k) by (apply Z.log2_up_le_pow2; lia). lia.
    + rewrite Z.log2_up_nonpos by lia. lia.
Qed.

(** A power of two [2^k], [k >= 2], reached by doubling past [x]. *)
Lemma round_up_from_4_unique x k :
  2 ≤ k → x ≤ 2 ^ k → (k = 2 ∨ 2 ^ (k - 1) < x) → 2 ^ k = round_up_from_4 x.
Proof.
  intros Hk Hle Hlow. unfold round_up_from_4. f_equal.
  destruct Hlow as [-> | Hlow].
  - destruct (decide (0 < x)) as [Hx|Hx].
    + assert (Z.log2_up x ≤ 2) by (apply Z.log2_up_le_pow2; lia). lia.
    + rewrite Z.log2_up_nonpos by lia. lia.
  - assert (0 < 2 ^ (k - 1)) by (apply Z.pow_pos_nonneg; lia).
    rewrite (Z.log2_up_unique x k); lia.
Qed.

(** ** The capacity search of [Extend] *)

Lemma coarse_step x i :
  x < 2 ^ 64 → coarse_inv x i → (i <? x / 8) = true →
  coarse_inv x (shl i 3) ∧ (search_variant (shl i 3) < search_variant i)%nat.
Proof.
  intros Hx (k & Hk & -> & _) Hc. apply Z.ltb_lt in Hc.
  assert (8 * (x / 8) ≤ x) as Hdiv by (apply Z.mul_div_le; lia).
  assert (2 ^ (k + 3) < x) as Hlt.
  { rewrite Z.pow_add_r by lia. change (2 ^ 3) with 8. lia. }
  assert (k + 3 < 64) by (apply pow2_lt_exp; lia).
  rewrite shl_pow2 by lia. split.
  - exists (k + 3). repeat split; [lia | lia | by right].
  - unfold search_variant. rewrite !Z.log2_pow2 by lia. lia.
Qed.

Lemma fine_step x i :
  x ≤ 2 ^ 63 → fine_inv x i → (i <? x) = true →
  fine_inv x (shl i 1) ∧ (search_variant (shl i 1) < search_variant i)%nat.
Proof.
  intros Hx (k & Hk & -> & _) Hc. apply Z.ltb_lt in Hc.
  assert (k < 63) by (apply pow2_lt_exp; lia).
  rewrite shl_pow2 by lia. split.
  - exists (k + 1). repeat split; [lia | lia |]. right.
    by replace (k + 1 - 1) with k by lia.
  - unfold search_variant. rewrite !Z.log2_pow2 by lia. lia.
Qed.

Lemma coarse_inv_fine x i : coarse_inv x i → fine_inv x i.
Proof.
  intros (k & Hk & -> & Hlow). exists k. repeat split; [lia | lia |].
  destruct Hlow as [-> | Hlt]; [by left | right].
  assert (2 ^ (k - 1) < 2 ^ k) by (apply Z.pow_lt_mono_r; lia). lia.
Qed.

Lemma fine_inv_exit x i :
  fine_inv x i → (i <? x) = false → i = round_up_from_4 x.
Proof.
  intros (k & Hk & -> & Hlow) Hc. apply Z.ltb_ge in Hc.
  apply round_up_from_4_unique; [lia | done | done].
Qed.

(** Within [2^63] the search returns, and returns the rounded size. *)
Lemma capacity_search_returns fuel x :
  x ≤ 2 ^ 63 → (64 ≤ fuel)%nat →
  capacity_search fuel x = Ok (round_up_from_4 x).
Proof.
  intros Hx Hfuel. unfold capacity_search.
  assert (coarse_inv x 4) as H4 by (exists 2; eauto with lia).
  destruct (while_variant (fun i => i <? x / 8) (fun i => Ok (shl i 3))
              (coarse_inv x) search_variant) with (fuel := fuel) (s := 4)
    as (i1 & -> & Hi1 & _); [| done | vm_compute; lia |].
  { intros i Hi Hc. exists (shl i 3). split; [done|].
    apply coarse_step; [lia | done | done]. }
  simpl.
  destruct (while_variant (fun i => i <? x) (fun i => Ok (shl i 1))
              (fine_inv x) search_variant) with (fuel := fuel) (s := i1)
    as (i2 & -> & Hi2 & Hc2).
  - intros i Hi Hc. exists (shl i 1). split; [done|]. by apply fine_step.
  - by apply coarse_inv_fine.
  - destruct Hi1 as (k & Hk & -> & _). unfold search_variant.
    rewrite Z.log2_pow2 by lia. lia.
  - f_equal. by apply fine_inv_exit.
Qed.

(** Above [2^63] the doubling wraps to zero before it reaches [x]: the
    second loop never ends. *)
Lemma capacity_search_diverges fuel x :
  2 ^ 63 < x < 2 ^ 64 → capacity_search fuel x = Timeout.
Proof.
  intros Hx. unfold capacity_search.
  destruct (while fuel (fun i => i <? x / 8) (fun i => Ok (shl i 3)) 4)
    as [i1| |] eqn:H1; simpl; [| | done].
  - apply (while_Ok_inv _ _ (coarse_inv x)) in H1 as [Hi1 _].
    + apply (while_stuck _ _
               (fun i => i = 0 ∨ ∃ k, 0 ≤ k ≤ 63 ∧ i = 2 ^ k)).
      * intros i Hi. split.
        { apply Z.ltb_lt. destruct Hi as [-> | (k & Hk & ->)]; [lia|].
          assert (2 ^ k ≤ 2 ^ 63) by (apply Z.pow_le_mono_r; lia). lia. }
        exists (shl i 1). split; [done|].
        destruct Hi as [-> | (k & Hk & ->)]; [by left|].
        destruct (decide (k = 63)) as [-> | Hne]; [by left|].
        right. exists (k + 1). rewrite shl_pow2 by lia. split; [lia | done].
      * right. destruct Hi1 as (k & Hk & -> & _). exists k. split; [lia | done].
    + intros i i' Hi Hc [= <-]. apply coarse_step; [lia | done | done].
    + exists 2. eauto with lia.
  - exfalso. revert H1. generalize 4. induction fuel as [|fuel IH]; [done|].
    intros i. simpl. destruct (i <? x / 8); [apply IH | done].
Qed.

(** A search that returns was asked for at most [2^63] bytes and returns
    the rounded size, whatever the fuel. *)
Lemma capacity_search_Ok fuel x c :
  x < 2 ^ 64 → capacity_search fuel x = Ok c →
  x ≤ 2 ^ 63 ∧ c = round_up_from_4 x.
Proof.
  intros Hx Hc. destruct (decide (x ≤ 2 ^ 63)) as [Hle|Hgt].
  - split; [done|]. unfold capacity_search in Hc.
    destruct (while fuel (fun i => i <? x / 8) (fun i => Ok (shl i 3)) 4)
      as [i1| |] eqn:H1; simpl in Hc; try done.
    apply (while_Ok_inv _ _ (coarse_inv x)) in H1 as [Hi1 _].
    + apply (while_Ok_inv _ _ (fine_inv x)) in Hc as [Hi2 Hc2].
      * by apply fine_inv_exit.
      * intros i i' Hi Hcond [= <-]. by apply fine_step.
      * by apply coarse_inv_fine.
    + intros i i' Hi Hcond [= <-]. apply coarse_step; [lia | done | done].
    + exists 2. eauto with lia.
  - rewrite capacity_search_diverges in Hc by lia. done.
Qed.

(** ** Region::Extend, branch by branch *)

Lemma Extend_noop fuel r new_bytes_used w :
  new_bytes_used ≤ bytes_used r → Extend fuel r new_bytes_used w = Ok (r, w).
Proof.
  intros H. unfold Extend.
  by destruct (Z.leb_spec new_bytes_used (bytes_used r)); [|lia].
Qed.

Lemma Extend_claim_tail fuel r new_bytes_used w :
  bytes_used r < new_bytes_used → new_bytes_used ≤ num_bytes r →
  Extend fuel r new_bytes_used w =
    Ok (mkRegion (context r) (data r) (deleter_context r) (num_bytes r)
          new_bytes_used, w).
Proof.
  intros H1 H2. unfold Extend.
  destruct (Z.leb_spec new_bytes_used (bytes_used r)); [lia|].
  by destruct (Z.ltb_spec (num_bytes r) new_bytes_used); [lia|].
Qed.

Lemma Extend_realloc_unfold fuel r new_bytes_used w :
  bytes_used r < new_bytes_used → num_bytes r < new_bytes_used →
  Extend fuel r new_bytes_used w =
    (c ← capacity_search fuel (Z.max (wrap (num_bytes r * 2)) new_bytes_used);
     '(p, d, w1) ← Context_Allocate (context r) c w;
     kind ← GetMemoryCopyKind (context r) (context r);
     w2 ← MemoryCopy p (data r) (bytes_used r) kind w1;
     w3 ← Context_Deallocate (context r) (data r) (deleter_context r) w2;
     Ok (mkRegion (context r) p d c new_bytes_used, w3)).
Proof.
  intros H1 H2. unfold Extend, capacity_search.
  destruct (Z.leb_spec new_bytes_used (bytes_used r)); [lia|].
  destruct (Z.ltb_spec (num_bytes r) new_bytes_used); [|lia].
  destruct (while fuel _ _ 4) as [i1| |]; simpl; try done.
  destruct (while fuel _ _ i1) as [i2| |]; simpl; try done.
  destruct (Context_Allocate _ _ _) as [[[p d] w1]| |]; simpl; try done.
  destruct (GetMemoryCopyKind _ _) as [kind| |]; simpl; try done.
  destruct (MemoryCopy _ _ _ _ _) as [w2| |]; simpl; try done.
  destruct (Context_Deallocate _ _ _ _) as [w3| |]; simpl; done.
Qed.

(** A search that returns has reached its target, whatever the fuel. *)
Lemma capacity_search_ge fuel x c : capacity_search fuel x = Ok c → x ≤ c.
Proof.
  unfold capacity_search. intros Hc.
  destruct (while fuel _ _ 4) as [i1| |]; simpl in Hc; try done.
  apply (while_Ok_inv _ _ (fun _ => True)) in Hc as [_ Hc]; [|done..].
  by apply Z.ltb_ge in Hc.
Qed.

(** What a returning reallocation went through. *)
Lemma Extend_realloc_inv fuel r new_bytes_used w r' w' :
  bytes_used r < new_bytes_used → num_bytes r < new_bytes_used →
  Extend fuel r new_bytes_used w = Ok (r', w') →
  ∃ c p d w1 kind w2,
    capacity_search fuel (Z.max (wrap (num_bytes r * 2)) new_bytes_used) = Ok c ∧
    Context_Allocate (context r) c w = Ok (p, d, w1) ∧
    GetMemoryCopyKind (context r) (context r) = Ok kind ∧
    MemoryCopy p (data r) (bytes_used r) kind w1 = Ok w2 ∧
    Context_Deallocate (context r) (data r) (deleter_context r) w2 = Ok w' ∧
    r' = mkRegion (context r) p d c new_bytes_used.
Proof.
  intros H1 H2. rewrite Extend_realloc_unfold by done.
  destruct (capacity_search _ _) as [c| |] eqn:Hc; simpl; try done.
  destruct (Context_Allocate _ _ _) as [[[p d] w1]| |] eqn:Ha; simpl; try done.
  destruct (GetMemoryCopyKind _ _) as [kind| |] eqn:Hk; simpl; try done.
  destruct (MemoryCopy _ _ _ _ _) as [w2| |] eqn:Hcopy; simpl; try done.
  destruct (Context_Deallocate _ _ _ _) as [w3| |] eqn:Hfree; simpl; try done.
  intros [= ? ?]; subst r' w'. by exists c, p, d, w1, kind, w2.
Qed.

(** The copy kind of a Context with itself. *)
Lemma GetMemoryCopyKind_self c :
  GetDeviceType c ≠ kUnk →
  ∃ kind, GetMemoryCopyKind c c = Ok kind ∧ kind ≠ MemcpyUnknown ∧
          kind = (if bool_decide (GetDeviceType c = kCpu)
                  then MemcpyHostToHost else MemcpyDeviceToDevice).
Proof.
  intros H. unfold GetMemoryCopyKind.
  destruct (GetDeviceType c); [done | |]; simpl; eauto.
Qed.

(** No wrap-around in [num_bytes * 2] below [2^63]. *)
Lemma new_size_no_wrap nb nbu :
  0 ≤ nb → Z.max (2 * nb) nbu ≤ 2 ^ 63 →
  Z.max (wrap (nb * 2)) nbu = Z.max (2 * nb) nbu.
Proof. intros H0 H. rewrite wrap_small by lia. f_equal. lia. Qed.

(** The copy of [Extend] on a heap where the fresh block has just been
    inserted: it succeeds and the fresh block starts with the old
    contents. *)
Lemma cudaMemcpy_into_fresh h p blk src old count :
  h !! p = None → h !! src = Some old →
  0 < count → count ≤ Z.of_nat (length old) → count ≤ Z.of_nat (length blk) →
  cudaMemcpy p src count (<[p := blk]> h) =
    Some (<[p := take (Z.to_nat count) old ++ drop (Z.to_nat count) blk]> h).
Proof.
  intros Hp Hsrc H0 Hold Hblk. unfold cudaMemcpy.
  destruct (Z.eqb_spec count 0); [lia|].
  assert (src ≠ p) by congruence.
  rewrite lookup_insert_ne, Hsrc, lookup_insert_eq by done.
  destruct (Z.leb_spec count (Z.of_nat (length old))); [|lia].
  destruct (Z.leb_spec count (Z.of_nat (length blk))); [|lia].
  simpl. by rewrite insert_insert_eq.
Qed.

(** The reallocating branch returns when the sizes fit in [2^63], the
    Context has a device, the allocation succeeds and the old block can be
    released.  The result is spelled out: the capacity, the pointers, the
    bytes that were copied and the calls that were made. *)
Lemma Extend_realloc_returns fuel r new_bytes_used w p d blk :
  (64 ≤ fuel)%nat →
  Region_valid w r →
  num_bytes r < new_bytes_used →
  Z.max (2 * num_bytes r) new_bytes_used ≤ 2 ^ 63 →
  GetDeviceType (context r) ≠ kUnk →
  Allocate_returns (context r)
    (round_up_from_4 (Z.max (2 * num_bytes r) new_bytes_used)) (heap w) p d blk →
  Deallocate_releases (context r) (data r) (deleter_context r) →
  ∃ kind w',
    Extend fuel r new_bytes_used w =
      Ok (mkRegion (context r) p d
            (round_up_from_4 (Z.max (2 * num_bytes r) new_bytes_used))
            new_bytes_used, w') ∧
    take (Z.to_nat (bytes_used r)) (block_of (heap w') p) = contents w r ∧
    events w' = events w ++
      [EvAllocate (round_up_from_4 (Z.max (2 * num_bytes r) new_bytes_used)) p d;
       EvMemoryCopy p (data r) (bytes_used r) kind;
       EvDeallocate (data r) (deleter_context r)].
Proof.
  intros Hfuel [Hrange Hblock] Hgrow Hbound Hdev (Halloc & Hp & Hfresh & Hlen) Hfree.
  set (cap := round_up_from_4 (Z.max (2 * num_bytes r) new_bytes_used)) in *.
  assert (new_bytes_used ≤ cap) as Hcap.
  { pose proof (round_up_from_4_ge (Z.max (2 * num_bytes r) new_bytes_used)).
    fold cap in H. lia. }
  destruct (GetMemoryCopyKind_self _ Hdev) as (kind & Hkind & Hknown & _).
  exists kind.
  rewrite Extend_realloc_unfold by lia.
  rewrite new_size_no_wrap by lia.
  rewrite capacity_search_returns by done. fold cap. simpl.
  unfold Context_Allocate. rewrite Halloc. simpl. rewrite Hkind. simpl.
  unfold MemoryCopy, K2_CHECK. simpl.
  rewrite bool_decide_eq_false_2 by done. simpl.
  assert (p ≠ data r) as Hne.
  { destruct Hblock as [[-> _] | (_ & old & Hold & _)]; [done | congruence]. }
  assert (∃ h2, cudaMemcpy p (data r) (bytes_used r) (<[p := blk]> (heap w)) = Some h2 ∧
                take (Z.to_nat (bytes_used r)) (block_of h2 p) = contents w r ∧
                (data r = NULL ∨ is_Some (h2 !! data r)))
    as (h2 & -> & Hcontents & Hlive).
  { destruct (decide (bytes_used r = 0)) as [Hz | Hnz].
    - exists (<[p := blk]> (heap w)). unfold cudaMemcpy, contents.
      rewrite Hz. repeat split.
      destruct Hblock as [[-> _] | (_ & old & Hold & _)]; [by left|].
      right. rewrite lookup_insert_ne by done. by rewrite Hold.
    - destruct Hblock as [[_ Hz] | (_ & old & Hold & Hlenold)]; [lia|].
      eexists. split; [apply cudaMemcpy_into_fresh with (old := old); (done || lia)|].
      split.
      + unfold block_of, contents. rewrite lookup_insert_eq. simpl.
        unfold block_of. rewrite Hold. simpl.
        rewrite take_app_le by (rewrite length_take; lia).
        rewrite take_take. f_equal. lia.
      + right. rewrite lookup_insert_ne by done. by rewrite Hold. }
  unfold Context_Deallocate. simpl.
  destruct (Hfree h2 Hlive) as (h3 & -> & Hframe). simpl.
  eexists. split; [done|]. simpl. split.
  - unfold block_of in *. by rewrite Hframe.
  - by rewrite <- !app_assoc.
Qed.

(** The host context of the examples releases what it is handed. *)
Lemma native_Deallocate_releases p d : Deallocate_releases CpuContext p d.
Proof.
  intros h Hp. simpl. unfold native_Deallocate.
  destruct (Z.eqb_spec p NULL) as [->|Hne]; [by exists h|].
  destruct Hp as [-> | [blk Hblk]]; [done|]. rewrite Hblk.
  exists (delete p h). split; [done|]. intros q Hq. by rewrite lookup_delete_ne.
Qed.

(** Closed facts about the example states hold by evaluation. *)
Ltac by_evaluation :=
  repeat match goal with
         | |- _ ∧ _ => split
         | |- _ ≠ _ => discriminate
         | |- _ => vm_compute; reflexivity
         end.

Lemma NewRegion_zero :
  NewRegion CpuContext 0 empty_world =
    Ok (region0, mkWorld ∅ [EvAllocate 0 NULL NULL]).
Proof. reflexivity. Qed.

(** ** Claims on Region::Extend *)

(** C1, as stated, fails: a Region of zero bytes extended to one byte gets
    capacity 4, and 4 is not the least power of two that is at least
    [max (2 * 0) 1 = 1]. *)
Lemma Extend_capacity_is_not_next_pow2 :
  ∃ w', Extend 64 region0 1 empty_world = Ok (mkRegion CpuContext 1 NULL 4 1, w') ∧
        ¬ least_pow2_ge (Z.max (2 * num_bytes region0) 1) 4.
Proof.
  eexists. split; [vm_compute; reflexivity|].
  intros (_ & _ & Hleast). specialize (Hleast 1).
  assert (4 ≤ 1); [|lia]. apply Hleast; [|simpl; lia].
  exists 0. split; [lia | reflexivity].
Qed.

(** The calls recorded by the three steps of a reallocation. *)
Lemma realloc_steps_events ctx c p d src bu dc kind w w1 w2 w' :
  Context_Allocate ctx c w = Ok (p, d, w1) →
  MemoryCopy p src bu kind w1 = Ok w2 →
  Context_Deallocate ctx src dc w2 = Ok w' →
  events w' = events w ++
    [EvAllocate c p d; EvMemoryCopy p src bu kind; EvDeallocate src dc].
Proof.
  unfold Context_Allocate, MemoryCopy, Context_Deallocate.
  intros Ha Hcopy Hd.
  destruct (Allocate _ _ _) as [[[p0 d0] h1]| |]; simpl in Ha; try done.
  injection Ha as <- <- <-.
  destruct (K2_CHECK _); simpl in Hcopy; try done.
  destruct (cudaMemcpy _ _ _ _) as [h2|]; simpl in Hcopy; try done.
  injection Hcopy as <-. simpl in Hd.
  destruct (Deallocate _ _ _ _) as [h3| |]; simpl in Hd; try done.
  injection Hd as <-. simpl. by rewrite <- !app_assoc.
Qed.

(** C1, amended: when [new_bytes_used > num_bytes], the sizes fit in
    [2^63], the Context is a host or accelerator context, the allocation
    succeeds and the old block can be released, [Extend] returns a Region
    whose capacity is the least power of two that is at least
    [max (2 * num_bytes) new_bytes_used] and at least 4, whose
    [bytes_used] is [new_bytes_used], and whose block starts with the
    first [bytes_used] bytes of the old block.  The world it returns is
    the one reached by three calls in this order: [Allocate] of the new
    capacity on the owning Context, one copy of [bytes_used] bytes from
    the old block to the new one, and [Deallocate] of the old block with
    its deleter context on the owning Context; these are the calls
    recorded. *)
Theorem Extend_reallocates fuel r new_bytes_used w p d blk :
  (64 ≤ fuel)%nat →
  Region_valid w r →
  num_bytes r < new_bytes_used →
  Z.max (2 * num_bytes r) new_bytes_used ≤ 2 ^ 63 →
  GetDeviceType (context r) ≠ kUnk →
  Allocate_returns (context r)
    (round_up_from_4 (Z.max (2 * num_bytes r) new_bytes_used)) (heap w) p d blk →
  Deallocate_releases (context r) (data r) (deleter_context r) →
  ∃ r' w' kind,
    Extend fuel r new_bytes_used w = Ok (r', w') ∧
    least_pow2_ge (Z.max 4 (Z.max (2 * num_bytes r) new_bytes_used))
      (num_bytes r') ∧
    bytes_used r' = new_bytes_used ∧
    context r' = context r ∧ data r' = p ∧ deleter_context r' = d ∧
    take (Z.to_nat (bytes_used r)) (block_of (heap w') (data r')) = contents w r ∧
    events w' = events w ++
      [EvAllocate (num_bytes r') p d;
       EvMemoryCopy p (data r) (bytes_used r) kind;
       EvDeallocate (data r) (deleter_context r)] ∧
    ∃ w1 w2,
      Context_Allocate (context r) (num_bytes r') w = Ok (p, d, w1) ∧
      GetMemoryCopyKind (context r) (context r) = Ok kind ∧
      MemoryCopy p (data r) (bytes_used r) kind w1 = Ok w2 ∧
      Context_Deallocate (context r) (data r) (deleter_context r) w2 = Ok w'.
Proof.
  intros Hfuel Hvalid Hgrow Hbound Hdev Halloc Hfree.
  destruct (Extend_realloc_returns fuel r new_bytes_used w p d blk)
    as (kind0 & w' & Heq & Hcontents & _); try done.
  pose proof Heq as Hsteps. destruct Hvalid as [Hrange _].
  apply Extend_realloc_inv in Hsteps
    as (c & p' & d' & w1 & kind & w2 & _ & Ha & Hk & Hcopy & Hd & Hr); [|lia..].
  injection Hr as <- <- <-.
  eexists _, w', kind. split; [exact Heq|]. simpl.
  split; [apply round_up_from_4_least|].
  do 5 (split; [done|]).
  split; [by eapply realloc_steps_events|].
  by exists w1, w2.
Qed.

Lemma Extend_reallocates_witness :
  ∃ r' w' kind,
    Extend 64 region10 20 world10 = Ok (r', w') ∧
    least_pow2_ge (Z.max 4 (Z.max (2 * 10) 20)) (num_bytes r') ∧
    bytes_used r' = 20 ∧
    context r' = CpuContext ∧ data r' = 2 ∧ deleter_context r' = NULL ∧
    take 10 (block_of (heap w') (data r')) = contents world10 region10 ∧
    events w' = [] ++
      [EvAllocate (num_bytes r') 2 NULL;
       EvMemoryCopy 2 1 10 kind;
       EvDeallocate 1 NULL] ∧
    ∃ w1 w2,
      Context_Allocate CpuContext (num_bytes r') world10 = Ok (2, NULL, w1) ∧
      GetMemoryCopyKind CpuContext CpuContext = Ok kind ∧
      MemoryCopy 2 1 10 kind w1 = Ok w2 ∧
      Context_Deallocate CpuContext 1 NULL w2 = Ok w'.
Proof.
  apply (Extend_reallocates 64 region10 20 world10 2 NULL (replicate 32 0)).
  - lia.
  - split; [simpl; lia|]. right. split; [done|]. by exists ten_bytes.
  - simpl; lia.
  - simpl; lia.
  - done.
  - unfold Allocate_returns. by_evaluation.
  - apply native_Deallocate_releases.
Defined.

(** C3: [Extend] keeps [bytes_used <= num_bytes], for every argument and
    in every branch.  Every Region that [Extend] returns satisfies the
    invariant; in the two branches that do not reallocate [Extend]
    always returns, and in the reallocating branch it returns when the
    sizes fit in [2^63], the Context has a device, the allocation
    succeeds and the old block can be released. *)
Theorem Extend_preserves_invariant fuel r new_bytes_used w :
  bytes_used r ≤ num_bytes r →
  (∀ r' w', Extend fuel r new_bytes_used w = Ok (r', w') →
            bytes_used r' ≤ num_bytes r') ∧
  (new_bytes_used ≤ num_bytes r →
   ∃ r' w', Extend fuel r new_bytes_used w = Ok (r', w')) ∧
  (num_bytes r < new_bytes_used →
   (64 ≤ fuel)%nat →
   Region_valid w r →
   Z.max (2 * num_bytes r) new_bytes_used ≤ 2 ^ 63 →
   GetDeviceType (context r) ≠ kUnk →
   ∀ p d blk,
     Allocate_returns (context r)
       (round_up_from_4 (Z.max (2 * num_bytes r) new_bytes_used))
       (heap w) p d blk →
     Deallocate_releases (context r) (data r) (deleter_context r) →
     ∃ r' w', Extend fuel r new_bytes_used w = Ok (r', w')).
Proof.
  intros Hinv. split; [|split].
  - intros r' w' Heq.
    destruct (decide (new_bytes_used ≤ bytes_used r)) as [Hnoop|Hmore].
    { rewrite Extend_noop in Heq by done. by injection Heq as <- <-. }
    destruct (decide (new_bytes_used ≤ num_bytes r)) as [Htail|Hgrow].
    { rewrite Extend_claim_tail in Heq by lia. by injection Heq as <- <-. }
    apply Extend_realloc_inv in Heq
      as (c & p & d & w1 & kind & w2 & Hc & _ & _ & _ & _ & ->); [|lia..].
    apply capacity_search_ge in Hc. simpl. lia.
  - intros Hfits.
    destruct (decide (new_bytes_used ≤ bytes_used r)) as [Hnoop|Hmore].
    + rewrite Extend_noop by done. eauto.
    + rewrite Extend_claim_tail by lia. eauto.
  - intros Hgrow Hfuel Hvalid Hbound Hdev p d blk Halloc Hfree.
    destruct (Extend_realloc_returns fuel r new_bytes_used w p d blk)
      as (kind & w' & Heq & _); try done. eauto.
Qed.

Lemma Extend_preserves_invariant_witness :
  Extend 64 region10 20 world10 =
    Ok (mkRegion CpuContext 2 NULL 32 20,
        mkWorld {[ 2 := ten_bytes ++ replicate 22 0 ]}
          [EvAllocate 32 2 NULL; EvMemoryCopy 2 1 10 MemcpyHostToHost;
           EvDeallocate 1 NULL]) ∧
  bytes_used (mkRegion CpuContext 2 NULL 32 20)
    ≤ num_bytes (mkRegion CpuContext 2 NULL 32 20).
Proof.
  assert (bytes_used region10 ≤ num_bytes region10) as Hinv by (simpl; lia).
  assert (Extend 64 region10 20 world10 =
    Ok (mkRegion CpuContext 2 NULL 32 20,
        mkWorld {[ 2 := ten_bytes ++ replicate 22 0 ]}
          [EvAllocate 32 2 NULL; EvMemoryCopy 2 1 10 MemcpyHostToHost;
           EvDeallocate 1 NULL])) as Heq by (vm_compute; reflexivity).
  split; [exact Heq|].
  exact (proj1 (Extend_preserves_invariant 64 region10 20 world10 Hinv) _ _ Heq).
Defined.

(** C4: for [b <= bytes_used], [Extend(b)] changes nothing: the four
    fields and the Context of the Region, the heap (so the buffer
    contents) and the list of allocator and copy calls are as before. *)
Theorem Extend_noop_below_bytes_used fuel r b w :
  b ≤ bytes_used r →
  ∃ r' w',
    Extend fuel r b w = Ok (r', w') ∧
    bytes_used r' = bytes_used r ∧ num_bytes r' = num_bytes r ∧
    data r' = data r ∧ deleter_context r' = deleter_context r ∧
    context r' = context r ∧
    heap w' = heap w ∧ events w' = events w.
Proof. intros H. exists r, w. by rewrite Extend_noop. Qed.

Lemma Extend_noop_below_bytes_used_witness :
  ∃ r' w',
    Extend 0 region10 7 world10 = Ok (r', w') ∧
    bytes_used r' = 10 ∧ num_bytes r' = 10 ∧
    data r' = 1 ∧ deleter_context r' = NULL ∧
    context r' = CpuContext ∧
    heap w' = {[ 1 := ten_bytes ]} ∧ events w' = [].
Proof.
  apply (Extend_noop_below_bytes_used 0 region10 7 world10). simpl. lia.
Defined.

(** C10: in the reallocating branch the search starts at 4.  Every
    Region that [Extend] returns there has as capacity the least power of
    two that is at least [max (2 * num_bytes) new_bytes_used] and at least
    4, so the capacity is 4 when that maximum is 1, 2 or 3; and [Extend]
    does return when the sizes fit in [2^63], the Context has a device,
    the allocation succeeds and the old block can be released. *)
Theorem Extend_capacity_starts_at_4 fuel r new_bytes_used w :
  0 ≤ bytes_used r ≤ num_bytes r →
  num_bytes r < new_bytes_used →
  new_bytes_used < 2 ^ 64 →
  (∀ r' w', Extend fuel r new_bytes_used w = Ok (r', w') →
     least_pow2_ge (Z.max 4 (Z.max (2 * num_bytes r) new_bytes_used))
       (num_bytes r') ∧
     (Z.max (2 * num_bytes r) new_bytes_used ≤ 3 → num_bytes r' = 4)) ∧
  ((64 ≤ fuel)%nat →
   Region_valid w r →
   Z.max (2 * num_bytes r) new_bytes_used ≤ 2 ^ 63 →
   GetDeviceType (context r) ≠ kUnk →
   ∀ p d blk,
     Allocate_returns (context r)
       (round_up_from_4 (Z.max (2 * num_bytes r) new_bytes_used))
       (heap w) p d blk →
     Deallocate_releases (context r) (data r) (deleter_context r) →
     ∃ r' w', Extend fuel r new_bytes_used w = Ok (r', w')).
Proof.
  intros Hrange Hgrow Hsize. split.
  - intros r' w' Heq.
    apply Extend_realloc_inv in Heq
      as (c & p & d & w1 & kind & w2 & Hc & _ & _ & _ & _ & ->); [|lia..].
    simpl. apply capacity_search_Ok in Hc as [Hle ->].
    + assert (Z.max (wrap (num_bytes r * 2)) new_bytes_used
              = Z.max (2 * num_bytes r) new_bytes_used) as ->.
      { rewrite wrap_small; [f_equal; lia|]. change (2 ^ 64) with (2 * 2 ^ 63).  lia. }
      split; [apply round_up_from_4_least|].
      intros Hsmall. unfold round_up_from_4.
      destruct (decide (0 < Z.max (2 * num_bytes r) new_bytes_used)).
      * assert (Z.log2_up (Z.max (2 * num_bytes r) new_bytes_used) ≤ 2)
          by (apply Z.log2_up_le_pow2; simpl; lia).
        by replace (Z.max 2 _) with 2 by lia.
      * rewrite Z.log2_up_nonpos by lia. done.
    + assert (wrap (num_bytes r * 2) < 2 ^ 64)
        by (apply Z.mod_pos_bound; done). lia.
  - intros Hfuel Hvalid Hbound Hdev p d blk Halloc Hfree.
    destruct (Extend_realloc_returns fuel r new_bytes_used w p d blk)
      as (kind & w' & Heq & _); try done. eauto.
Qed.

Lemma Extend_capacity_starts_at_4_witness :
  ∃ r' w', Extend 64 region0 1 empty_world = Ok (r', w') ∧ num_bytes r' = 4.
Proof.
  destruct (Extend_capacity_starts_at_4 64 region0 1 empty_world)
    as [Hcap Hret]; [simpl; lia | simpl; lia | lia |].
  destruct (Hret ltac:(lia)) with (p := 1) (d := NULL) (blk := replicate 4 0)
    as (r' & w' & Heq).
  - split; [simpl; lia|]. by left.
  - simpl; lia.
  - done.
  - unfold Allocate_returns. by_evaluation.
  - apply native_Deallocate_releases.
  - exists r', w'. split; [exact Heq|].
    apply (Hcap r' w' Heq). simpl. lia.
Defined.

(** A reallocation asked for more than [2^63] bytes never returns: the
    doubling wraps to zero and the search spins. *)
Lemma Extend_spins_above_2_63 fuel r new_bytes_used w :
  bytes_used r ≤ num_bytes r → num_bytes r < new_bytes_used →
  2 ^ 63 < new_bytes_used < 2 ^ 64 →
  Extend fuel r new_bytes_used w = Timeout.
Proof.
  intros Hinv Hgrow Hbig. rewrite Extend_realloc_unfold by lia.
  rewrite capacity_search_diverges; [done|].
  assert (0 ≤ wrap (num_bytes r * 2) < 2 ^ 64)
    by (apply Z.mod_pos_bound; done). lia.
Qed.

(** ** GetMemoryCopyKind *)

(** C5: the four host / accelerator pairs give the four copy kinds, and
    every pair with an unknown device type is fatal: no kind is
    returned. *)
Theorem GetMemoryCopyKind_classifies src dst :
  GetMemoryCopyKind src dst =
    match GetDeviceType src, GetDeviceType dst with
    | kCpu, kCpu => Ok MemcpyHostToHost
    | kCpu, kCuda => Ok MemcpyHostToDevice
    | kCuda, kCpu => Ok MemcpyDeviceToHost
    | kCuda, kCuda => Ok MemcpyDeviceToDevice
    | kUnk, kUnk | kUnk, kCuda | kUnk, kCpu | kCuda, kUnk | kCpu, kUnk => Fatal
    end.
Proof.
  unfold GetMemoryCopyKind.
  by destruct (GetDeviceType src), (GetDeviceType dst).
Qed.

(** ** Counted loops on the host *)

(** A [for (i = i0; i < n; ++i)] loop whose body acts as [f i] on states
    that satisfy [P] runs [f] over [i0, ..., n-1] in this order. *)
Lemma for_loop_run {S : Type} (step : Z * S → result (Z * S))
    (f : Z → S → S) (P : S → Prop) (n : Z) fuel i s :
  (∀ j s, i ≤ j < n → P s → step (j, s) = Ok (j + 1, f j s) ∧ P (f j s)) →
  P s →
  (Z.to_nat (n - i) < fuel)%nat →
  while fuel (fun '(j, _) => j <? n) step (i, s) =
    Ok (Z.max i n, foldl (fun s j => f j s) s (seqZ i (n - i))).
Proof.
  revert i s. induction fuel as [|fuel IH]; intros i s Hstep HP Hfuel; [lia|].
  simpl. destruct (Z.ltb_spec i n) as [Hlt|Hge].
  - destruct (Hstep i s) as [-> HP']; [lia | done |]. simpl.
    rewrite IH; [| intros; apply Hstep; (lia || done) | done | lia].
    rewrite (seqZ_cons i) by lia. simpl.
    do 2 f_equal; [lia|]. do 2 f_equal; lia.
  - rewrite seqZ_nil by lia. simpl. do 2 f_equal. lia.
Qed.

Lemma foldl_bind {A B C : Type} (g : C → B → C) (h : A → list B) l c :
  foldl g c (l ≫= h) = foldl (fun c a => foldl g c (h a)) c l.
Proof.
  revert c. induction l as [|a l IH]; intros c; [done|].
  simpl. by rewrite foldl_app, IH.
Qed.

Lemma foldl_ext_fun {A B : Type} (g1 g2 : A → B → A) l a :
  (∀ a b, g1 a b = g2 a b) → foldl g1 a l = foldl g2 a l.
Proof.
  intros Hg. revert a. induction l as [|b l IH]; intros a; [done|].
  simpl. by rewrite Hg, IH.
Qed.

(** [Eval] on the host is a left fold of the closure over [0, ..., n-1]. *)
Lemma Eval_stream_host {S : Type} fuel n (lambda : Z → S → S) e :
  (Z.to_nat n < fuel)%nat →
  Eval_stream fuel kCudaStreamInvalid n lambda e =
    Ok (mkExec (foldl (fun s i => lambda i s) (host_state e) (seqZ 0 n))
          (launched e)).
Proof.
  intros Hfuel. unfold Eval_stream.
  destruct (Z.leb_spec n 0) as [Hn|Hn].
  { rewrite seqZ_nil by lia. by destruct e. }
  rewrite Z.eqb_refl.
  rewrite (for_loop_run _ lambda (fun _ => True)); [| done | done | ].
  - simpl. by rewrite Z.sub_0_r.
  - by rewrite Z.sub_0_r.
Qed.

(** [Eval2] on the host is a left fold over the pairs in row-major
    order. *)
Lemma Eval2_host {S : Type} fuel m n (lambda : Z → Z → S → S) e :
  (Z.to_nat m < fuel)%nat → (Z.to_nat n < fuel)%nat →
  Eval2 fuel kCudaStreamInvalid m n lambda e =
    Ok (mkExec (foldl (fun s '(i, j) => lambda i j s) (host_state e)
                  (row_major m n)) (launched e)).
Proof.
  intros Hm Hn. unfold Eval2, row_major.
  destruct (Z.leb_spec m 0) as [Hm0|Hm0]; simpl.
  { rewrite (seqZ_nil 0 m) by lia. by destruct e. }
  destruct (Z.leb_spec n 0) as [Hn0|Hn0]; simpl.
  { rewrite (seqZ_nil 0 n) by lia. rewrite foldl_bind. simpl.
    destruct e as [s l]. simpl. f_equal. f_equal.
    induction (seqZ 0 m); [done|]. by simpl. }
  rewrite (for_loop_run _
             (fun i s => foldl (fun s j => lambda i j s) s (seqZ 0 n))
             (fun _ => True)); [| | done |].
  - simpl. rewrite Z.sub_0_r, foldl_bind. do 2 f_equal.
    apply foldl_ext_fun. intros s i. by rewrite foldl_fmap.
  - intros i s Hi _. split; [|done].
    rewrite (for_loop_run _ (lambda i) (fun _ => True)); [| done | done |].
    + simpl. by rewrite Z.sub_0_r.
    + by rewrite Z.sub_0_r.
  - by rewrite Z.sub_0_r.
Qed.

(** The data form on the host is a left fold of the writes over
    [0, ..., n-1], as long as the buffer holds [n] elements. *)
Lemma Eval_data_host_fold {S T : Type} fuel n (lambda : Z → S → T * S)
    (data : list T) e :
  (Z.to_nat n < fuel)%nat → n ≤ Z.of_nat (length data) →
  Eval_data fuel kCudaStreamInvalid data n lambda e =
    Ok (let sd := foldl (fun sd i => write_step lambda i sd)
                    (host_state e, data) (seqZ 0 n) in
        (mkExec sd.1 (launched e), sd.2)).
Proof.
  intros Hfuel Hlen. unfold Eval_data.
  destruct (Z.leb_spec n 0) as [Hn|Hn].
  { rewrite seqZ_nil by lia. by destruct e. }
  rewrite Z.eqb_refl.
  rewrite (for_loop_run _ (write_step lambda)
             (fun sd => length sd.2 = length data)); [| | done |].
  - rewrite Z.sub_0_r. simpl. by destruct (foldl _ _ _).
  - intros j [s d] Hj Hd. simpl in Hd. unfold write_step. simpl.
    destruct (lambda j s) as [v s']. unfold store.
    destruct (Z.leb_spec 0 j); [|lia].
    destruct (Z.ltb_spec j (Z.of_nat (length d))); [|lia].
    simpl. split; [done|]. by rewrite length_insert.
  - by rewrite Z.sub_0_r.
Qed.

(** With a closure that returns [f i] and records the call, the writes
    fill the first [k] cells with [f 0, ..., f (k-1)]. *)
Lemma foldl_write_traced {T : Type} (f : Z → T) (log : list Z) data (k : nat) :
  (k ≤ length data)%nat →
  foldl (fun sd i => write_step (traced_value f) i sd) (log, data)
    (seqZ 0 (Z.of_nat k)) =
  (log ++ seqZ 0 (Z.of_nat k), (f <$> seqZ 0 (Z.of_nat k)) ++ drop k data).
Proof.
  induction k as [|k IH]; intros Hk.
  { simpl. by rewrite app_nil_r, drop_0. }
  rewrite seqZ_S, foldl_app, IH by lia. simpl.
  unfold write_step, traced_value. simpl.
  rewrite Z.add_0_l, Nat2Z.id, app_assoc, fmap_app. simpl. f_equal.
  destruct (lookup_lt_is_Some_2 data k) as [x Hx]; [lia|].
  rewrite (drop_S data x k) by done.
  rewrite insert_app_r_alt by (rewrite length_fmap, length_seqZ; lia).
  rewrite length_fmap, length_seqZ, Nat2Z.id, Nat.sub_diag. simpl.
  by rewrite <- app_assoc.
Qed.

Lemma Eval_data_host_traced {T : Type} fuel n (f : Z → T) (data : list T) e :
  (Z.to_nat n < fuel)%nat → n ≤ Z.of_nat (length data) →
  Eval_data fuel kCudaStreamInvalid data n (traced_value f) e =
    Ok (mkExec (host_state e ++ seqZ 0 n) (launched e),
        (f <$> seqZ 0 n) ++ drop (Z.to_nat n) data).
Proof.
  intros Hfuel Hlen. rewrite Eval_data_host_fold by done.
  destruct (Z.leb_spec n 0) as [Hn|Hn].
  { rewrite seqZ_nil by lia. simpl. rewrite app_nil_r.
    replace (Z.to_nat n) with 0%nat by lia. by destruct e. }
  pose proof (foldl_write_traced f (host_state e) data (Z.to_nat n)) as Hfold.
  rewrite Z2Nat.id in Hfold by lia. by rewrite Hfold by lia.
Qed.

(** ** The pairs visited by Eval2 *)

Lemma elem_of_row_major m n i j :
  (i, j) ∈ row_major m n ↔ (0 ≤ i < m ∧ 0 ≤ j < n).
Proof.
  unfold row_major. rewrite list_elem_of_bind. split.
  - intros (i' & Hin & Hi'). apply list_elem_of_fmap in Hin as (j' & [= -> ->] & Hj').
    apply elem_of_seqZ in Hi', Hj'. lia.
  - intros [Hi Hj]. exists i. split.
    + apply list_elem_of_fmap. exists j. split; [done|]. apply elem_of_seqZ. lia.
    + apply elem_of_seqZ. lia.
Qed.

Lemma NoDup_row_major m n : NoDup (row_major m n).
Proof.
  unfold row_major. apply NoDup_bind.
  - intros i1 i2 [i j] _ _ H1 H2.
    apply list_elem_of_fmap in H1 as (j1 & [= -> ->] & _).
    by apply list_elem_of_fmap in H2 as (j2 & [= -> ->] & _).
  - intros i _. apply NoDup_fmap_2; [|apply NoDup_seqZ].
    by intros j1 j2 [= ->].
  - apply NoDup_seqZ.
Qed.

Lemma foldl_traced (log l : list Z) :
  foldl (fun s i => traced i s) log l = log ++ l.
Proof.
  revert log. induction l as [|i l IH]; intros log; simpl.
  - by rewrite app_nil_r.
  - unfold traced at 2. by rewrite IH, <- app_assoc.
Qed.

Lemma foldl_traced2 (log l : list (Z * Z)) :
  foldl (fun s '(i, j) => traced2 i j s) log l = log ++ l.
Proof.
  revert log. induction l as [|[i j] l IH]; intros log; simpl.
  - by rewrite app_nil_r.
  - unfold traced2 at 2. by rewrite IH, <- app_assoc.
Qed.

(** ** Claims on Eval and Eval2 *)

(** C6: with the host sentinel as stream, given directly or as the
    stream of the Context, [Eval] applies the closure to 0, 1, ..., n-1 in
    this order and launches nothing: the result is the left fold of the
    closure over [seqZ 0 n], and a closure that records its argument
    leaves the record [0; ...; n-1].  The data form calls the closure in
    the same order and leaves [f 0, ..., f (n-1)] in the first [n] cells
    of the buffer. *)
Theorem Eval_host_runs_ascending {S T : Type} fuel stream (c : Context) n
    (lambda : Z → S → S) (f : Z → T) (e : Exec S) (log : Exec (list Z))
    (data : list T) :
  stream = kCudaStreamInvalid →
  GetCudaStream c = kCudaStreamInvalid →
  (Z.to_nat n < fuel)%nat →
  n ≤ Z.of_nat (length data) →
  Eval_stream fuel stream n lambda e =
    Ok (mkExec (foldl (fun s i => lambda i s) (host_state e) (seqZ 0 n))
          (launched e)) ∧
  Eval_ctx fuel c n lambda e = Eval_stream fuel stream n lambda e ∧
  Eval_data_ctx fuel c data n (traced_value f) log =
    Eval_data fuel stream data n (traced_value f) log ∧
  Eval_stream fuel stream n traced log =
    Ok (mkExec (host_state log ++ seqZ 0 n) (launched log)) ∧
  Eval_data fuel stream data n (traced_value f) log =
    Ok (mkExec (host_state log ++ seqZ 0 n) (launched log),
        (f <$> seqZ 0 n) ++ drop (Z.to_nat n) data).
Proof.
  intros -> Hc Hfuel Hlen. unfold Eval_ctx, Eval_data_ctx. rewrite Hc.
  split; [by apply Eval_stream_host|]. do 2 (split; [done|]). split.
  - rewrite Eval_stream_host by done. by rewrite foldl_traced.
  - by apply Eval_data_host_traced.
Qed.

Lemma Eval_host_runs_ascending_witness :
  Eval_stream 6 kCudaStreamInvalid 5 traced (mkExec [] []) =
    Ok (mkExec [0; 1; 2; 3; 4] []) ∧
  Eval_data 6 kCudaStreamInvalid [0; 0; 0; 0; 0] 5
    (traced_value (fun i => i * i)) (mkExec [] []) =
    Ok (mkExec [0; 1; 2; 3; 4] [], [0; 1; 4; 9; 16]).
Proof.
  destruct (Eval_host_runs_ascending 6 kCudaStreamInvalid CpuContext 5 traced
              (fun i => i * i) (mkExec [] []) (mkExec [] []) [0; 0; 0; 0; 0])
    as (_ & _ & _ & Hcalls & Hdata);
    [reflexivity | reflexivity | simpl; lia | simpl; lia |].
  split; [exact Hcalls | exact Hdata].
Defined.

(** C7: with the host sentinel as stream, given directly or as the
    stream of the Context, and [m > 0], [n > 0], [Eval2] applies the
    closure to the pairs of [row_major m n] in this order, that is with the first
    index outermost and the second varying fastest, and launches nothing;
    [row_major m n] holds every pair of [0, m) x [0, n) exactly once and
    nothing else. *)
Theorem Eval2_host_visits_each_pair_once {S : Type} fuel stream (c : Context)
    m n (lambda : Z → Z → S → S) (e : Exec S) (log : Exec (list (Z * Z))) :
  stream = kCudaStreamInvalid →
  GetCudaStream c = kCudaStreamInvalid →
  0 < m → 0 < n →
  (Z.to_nat m < fuel)%nat → (Z.to_nat n < fuel)%nat →
  Eval2 fuel stream m n lambda e =
    Ok (mkExec (foldl (fun s '(i, j) => lambda i j s) (host_state e)
                  (row_major m n)) (launched e)) ∧
  Eval2_ctx fuel c m n lambda e = Eval2 fuel stream m n lambda e ∧
  Eval2 fuel stream m n traced2 log =
    Ok (mkExec (host_state log ++ row_major m n) (launched log)) ∧
  row_major m n = (i ← seqZ 0 m; (fun j => (i, j)) <$> seqZ 0 n) ∧
  NoDup (row_major m n) ∧
  (∀ i j, (i, j) ∈ row_major m n ↔ 0 ≤ i < m ∧ 0 ≤ j < n).
Proof.
  intros -> Hc _ _ Hm Hn. unfold Eval2_ctx. rewrite Hc.
  split; [by apply Eval2_host|]. split; [done|]. split.
  - rewrite Eval2_host by done. by rewrite foldl_traced2.
  - split; [done|]. split; [apply NoDup_row_major|].
    intros i j. apply elem_of_row_major.
Qed.

Lemma Eval2_host_visits_each_pair_once_witness :
  Eval2 4 kCudaStreamInvalid 2 3 traced2 (mkExec [] []) =
    Ok (mkExec [(0, 0); (0, 1); (0, 2); (1, 0); (1, 1); (1, 2)] []) ∧
  NoDup (row_major 2 3) ∧
  (∀ i j, (i, j) ∈ row_major 2 3 ↔ 0 ≤ i < 2 ∧ 0 ≤ j < 3).
Proof.
  destruct (Eval2_host_visits_each_pair_once 4 kCudaStreamInvalid CpuContext
              2 3 traced2 (mkExec [] []) (mkExec [] []))
    as (_ & _ & Hcalls & _ & Hnodup & Hmem);
    [reflexivity | reflexivity | lia | lia | simpl; lia | simpl; lia |].
  split; [exact Hcalls|]. split; [exact Hnodup | exact Hmem].
Defined.

(** C8: with [n <= 0] both forms of [Eval], on a stream or on a Context,
    return at once with the state as it was: the closure is not called
    and nothing is launched.  The same holds for [Eval2] when either
    count is [<= 0]. *)
Theorem Eval_nonpositive_count_is_noop {S T : Type} fuel stream (c : Context)
    n k (lambda : Z → S → S) (lambda_data : Z → S → T * S)
    (lambda2 : Z → Z → S → S) (e : Exec S) (data : list T) :
  n ≤ 0 →
  Eval_stream fuel stream n lambda e = Ok e ∧
  Eval_ctx fuel c n lambda e = Ok e ∧
  Eval_data fuel stream data n lambda_data e = Ok (e, data) ∧
  Eval_data_ctx fuel c data n lambda_data e = Ok (e, data) ∧
  Eval2 fuel stream n k lambda2 e = Ok e ∧
  Eval2 fuel stream k n lambda2 e = Ok e ∧
  Eval2_ctx fuel c n k lambda2 e = Ok e ∧
  Eval2_ctx fuel c k n lambda2 e = Ok e.
Proof.
  intros Hn.
  unfold Eval_ctx, Eval_data_ctx, Eval2_ctx, Eval_stream, Eval_data, Eval2.
  destruct (Z.leb_spec n 0); [|lia]. simpl. rewrite orb_true_r. done.
Qed.

Lemma Eval_nonpositive_count_is_noop_witness :
  Eval_ctx 9 CpuContext 0 traced (mkExec [] []) = Ok (mkExec [] []) ∧
  Eval_ctx 9 CpuContext (-1) traced (mkExec [] []) = Ok (mkExec [] []) ∧
  Eval2 9 kCudaStreamInvalid 2 0 traced2 (mkExec [] []) = Ok (mkExec [] []).
Proof.
  split; [|split].
  - apply (Eval_nonpositive_count_is_noop (T := Z) 9 0 CpuContext 0 0 traced
             (traced_value id) (fun _ _ s => s) (mkExec [] []) []). lia.
  - apply (Eval_nonpositive_count_is_noop (T := Z) 9 0 CpuContext (-1) 0 traced
             (traced_value id) (fun _ _ s => s) (mkExec [] []) []). lia.
  - apply (Eval_nonpositive_count_is_noop (S := list (Z * Z)) (T := Z) 9
             kCudaStreamInvalid CpuContext 0 2 (fun _ s => s)
             (fun _ s => (0, s)) traced2 (mkExec [] []) []). lia.
Defined.

(** ** Claims on the stream-override stack *)

Lemma snoc_not_nil {A : Type} (l : list A) x : l ++ [x] ≠ [].
Proof. by destruct l. Qed.

Lemma Pop_Push g A : Pop (Push g A) A = Ok (mkOverride A (stack_ g)).
Proof.
  unfold Pop, Push. simpl. rewrite last_snoc, removelast_last.
  rewrite (bool_decide_eq_false_2 (_ ++ _ = [])) by apply snoc_not_nil.
  simpl. by rewrite bool_decide_eq_true_2.
Qed.

(** Popping a token other than the one on top is fatal. *)
Lemma Pop_out_of_order g A B : A ≠ B → Pop (Push g B) A = Fatal.
Proof.
  intros Hne. unfold Pop, Push. simpl. rewrite last_snoc.
  rewrite (bool_decide_eq_false_2 (_ ++ _ = [])) by apply snoc_not_nil.
  simpl. rewrite bool_decide_eq_false_2; [done|]. congruence.
Qed.

(** Two nested scopes put the stack back and leave the inner token as
    the override. *)
Lemma nested_scopes_result A B g :
  nested_scopes A B g = Ok (mkOverride B (stack_ g)).
Proof.
  unfold nested_scopes, With_enter, With_exit. simpl.
  rewrite Pop_Push. simpl.
  unfold Pop. simpl. rewrite last_snoc, removelast_last.
  rewrite (bool_decide_eq_false_2 (_ ++ _ = [])) by apply snoc_not_nil.
  simpl. by rewrite bool_decide_eq_true_2.
Qed.

(** C2, as the code runs it: push 1, push 2, pop 2, pop 1 on a fresh
    override stack.  The stack is empty again, but [stream_override_]
    still holds 2, so a dispatch on stream 7 that was left alone before
    the first push is now redirected to stream 2.  Popping 1 while 2 is on
    top is fatal. *)
Theorem nested_scopes_leave_inner_override :
  nested_scopes 1 2 CudaStreamOverride_init = Ok (mkOverride 2 []) ∧
  mkOverride 2 [] ≠ CudaStreamOverride_init ∧
  OverrideStream CudaStreamOverride_init 7 = 7 ∧
  OverrideStream (mkOverride 2 []) 7 = 2 ∧
  Pop (Push (Push CudaStreamOverride_init 1) 2) 1 = Fatal.
Proof. repeat split; (reflexivity || discriminate). Qed.

(** C9, as stated, fails in two ways.  After [Push 1; Push 2; Pop 2] the
    top of the stack is 1 and an override is set, yet a dispatch on
    stream 7 resolves to 2, not to the top of the stack.  And after
    [Push 0] on a fresh object the pushed token is on top of the stack
    but is not an override: a dispatch on stream 7 stays on 7. *)
Lemma OverrideStream_is_not_top_of_stack :
  (∃ o, Pop (Push (Push CudaStreamOverride_init 1) 2) 2 = Ok o ∧
        last (stack_ o) = Some 1 ∧
        stream_override_ o ≠ 0 ∧
        7 ≠ kCudaStreamInvalid ∧
        OverrideStream o 7 = 2 ∧
        OverrideStream o 7 ≠ 1) ∧
  (last (stack_ (Push CudaStreamOverride_init 0)) = Some 0 ∧
   7 ≠ kCudaStreamInvalid ∧
   OverrideStream (Push CudaStreamOverride_init 0) 7 = 7 ∧
   OverrideStream (Push CudaStreamOverride_init 0) 7 ≠ 0).
Proof.
  split.
  - exists (mkOverride 2 [1]). by_evaluation.
  - by_evaluation.
Qed.

(** C9, amended: right after a token [t] other than the null stream is
    pushed, in whatever state, [t] is on top of the stack and is the
    override: every stream other than the host sentinel resolves to [t].
    Right after the null stream is pushed no override is set: every
    stream resolves to itself.  In every state the host sentinel resolves
    to itself, and so does every stream when [stream_override_] is
    null. *)
Theorem OverrideStream_after_Push o t s :
  last (stack_ (Push o t)) = Some t ∧
  stream_override_ (Push o t) = t ∧
  (t ≠ 0 → s ≠ kCudaStreamInvalid → OverrideStream (Push o t) s = t) ∧
  (t = 0 → OverrideStream (Push o t) s = s) ∧
  OverrideStream o kCudaStreamInvalid = kCudaStreamInvalid ∧
  (stream_override_ o = 0 → OverrideStream o s = s).
Proof.
  unfold OverrideStream, Push. simpl. rewrite last_snoc.
  split; [done|]. split; [done|]. split; [|split; [|split]].
  - intros Ht Hs. destruct (Z.eqb_spec t 0); [done|].
    by destruct (Z.eqb_spec s kCudaStreamInvalid).
  - by intros ->.
  - by rewrite andb_false_r.
  - by intros ->.
Qed.

Lemma OverrideStream_after_Push_witness :
  last (stack_ (Push (mkOverride 3 [3]) 5)) = Some 5 ∧
  OverrideStream (Push (mkOverride 3 [3]) 5) 7 = 5 ∧
  OverrideStream (Push (mkOverride 3 [3]) 0) 7 = 7.
Proof.
  destruct (OverrideStream_after_Push (mkOverride 3 [3]) 5 7)
    as (Htop & _ & Hset & _).
  destruct (OverrideStream_after_Push (mkOverride 3 [3]) 0 7)
    as (_ & _ & _ & Hnull & _).
  split; [exact Htop|]. split; [apply Hset; discriminate | by apply Hnull].
Defined.

(** * Further properties *)

(** ** Region::Extend, GetData and the destructor *)

(** X1: a request that fits in the capacity never moves the block.  For
    [new_bytes_used <= num_bytes], [Extend] returns with the heap and the
    call list untouched, the same Context, pointer, deleter context and
    capacity, and [bytes_used] raised to the larger of its old value and
    the request; a typed pointer taken with [GetData] before the call is
    the one [GetData] gives after it. *)
Theorem Extend_within_capacity_keeps_block fuel r new_bytes_used w :
  new_bytes_used ≤ num_bytes r →
  ∃ r',
    Extend fuel r new_bytes_used w = Ok (r', w) ∧
    context r' = context r ∧ data r' = data r ∧
    deleter_context r' = deleter_context r ∧ num_bytes r' = num_bytes r ∧
    bytes_used r' = Z.max (bytes_used r) new_bytes_used ∧
    ∀ d, GetData d r' = GetData d r.
Proof.
  intros Hfits.
  destruct (decide (new_bytes_used ≤ bytes_used r)) as [Hnoop|Hmore].
  - exists r. rewrite Extend_noop by done. split_and!; try done. lia.
  - eexists. rewrite Extend_claim_tail by lia. split; [done|]. simpl.
    split_and!; try done. lia.
Qed.

Lemma Extend_within_capacity_keeps_block_witness :
  ∃ r',
    Extend 0 (mkRegion CpuContext 1 NULL 10 4) 7 world10 = Ok (r', world10) ∧
    context r' = CpuContext ∧ data r' = 1 ∧
    deleter_context r' = NULL ∧ num_bytes r' = 10 ∧
    bytes_used r' = Z.max 4 7 ∧
    ∀ d, GetData d r' = GetData d (mkRegion CpuContext 1 NULL 10 4).
Proof.
  apply (Extend_within_capacity_keeps_block 0 (mkRegion CpuContext 1 NULL 10 4)
           7 world10).
  simpl. lia.
Defined.

(** X2: [Extend] never shrinks a Region and never changes its Context.
    Whenever it returns, [bytes_used] is the larger of its old value and
    the request and the capacity is at least the old capacity. *)
Theorem Extend_never_shrinks fuel r new_bytes_used w r' w' :
  Extend fuel r new_bytes_used w = Ok (r', w') →
  bytes_used r' = Z.max (bytes_used r) new_bytes_used ∧
  num_bytes r ≤ num_bytes r' ∧
  context r' = context r.
Proof.
  intros Heq.
  destruct (decide (new_bytes_used ≤ bytes_used r)) as [Hnoop|Hmore].
  { rewrite Extend_noop in Heq by done. injection Heq as <- <-.
    repeat split; lia. }
  destruct (decide (new_bytes_used ≤ num_bytes r)) as [Htail|Hgrow].
  { rewrite Extend_claim_tail in Heq by lia. injection Heq as <- <-.
    simpl. repeat split; lia. }
  apply Extend_realloc_inv in Heq
    as (c & p & d & w1 & kind & w2 & Hc & _ & _ & _ & _ & ->); [|lia..].
  apply capacity_search_ge in Hc. simpl. repeat split; lia.
Qed.

Lemma Extend_never_shrinks_witness :
  bytes_used (mkRegion CpuContext 2 NULL 32 20) = Z.max (bytes_used region10) 20 ∧
  num_bytes region10 ≤ num_bytes (mkRegion CpuContext 2 NULL 32 20) ∧
  context (mkRegion CpuContext 2 NULL 32 20) = context region10.
Proof.
  apply (Extend_never_shrinks 64 region10 20 world10
           (mkRegion CpuContext 2 NULL 32 20)
           (mkWorld {[ 2 := ten_bytes ++ replicate 22 0 ]}
              [EvAllocate 32 2 NULL; EvMemoryCopy 2 1 10 MemcpyHostToHost;
               EvDeallocate 1 NULL])).
  vm_compute. reflexivity.
Defined.

Lemma Extend_Ok_reaches_request fuel r new_bytes_used w r' w' :
  Extend fuel r new_bytes_used w = Ok (r', w') →
  new_bytes_used ≤ bytes_used r'.
Proof.
  intros Heq.
  destruct (decide (new_bytes_used ≤ bytes_used r)) as [Hnoop|Hmore].
  { rewrite Extend_noop in Heq by done. by injection Heq as <- <-. }
  destruct (decide (new_bytes_used ≤ num_bytes r)) as [Htail|Hgrow].
  { rewrite Extend_claim_tail in Heq by lia. injection Heq as <- <-. done. }
  apply Extend_realloc_inv in Heq
    as (c & p & d & w1 & kind & w2 & _ & _ & _ & _ & _ & ->); [|lia..].
  done.
Qed.

(** X3: once [Extend(b)] has returned, [Extend(b')] with any [b' <= b]
    does nothing more, whatever the fuel: no call is made and neither the
    Region nor the heap changes. *)
Theorem Extend_again_is_noop fuel fuel' r b b' w r' w' :
  Extend fuel r b w = Ok (r', w') →
  b' ≤ b →
  Extend fuel' r' b' w' = Ok (r', w').
Proof.
  intros Heq Hle. apply Extend_noop.
  apply Extend_Ok_reaches_request in Heq. lia.
Qed.

Lemma Extend_again_is_noop_witness :
  Extend 0 (mkRegion CpuContext 2 NULL 32 20) 20
    (mkWorld {[ 2 := ten_bytes ++ replicate 22 0 ]}
       [EvAllocate 32 2 NULL; EvMemoryCopy 2 1 10 MemcpyHostToHost;
        EvDeallocate 1 NULL]) =
  Ok (mkRegion CpuContext 2 NULL 32 20,
      mkWorld {[ 2 := ten_bytes ++ replicate 22 0 ]}
        [EvAllocate 32 2 NULL; EvMemoryCopy 2 1 10 MemcpyHostToHost;
         EvDeallocate 1 NULL]).
Proof.
  apply (Extend_again_is_noop 64 0 region10 20 20 world10).
  - vm_compute. reflexivity.
  - lia.
Defined.

Lemma round_up_from_4_lt_double x :
  4 < round_up_from_4 x → round_up_from_4 x < 2 * x.
Proof.
  unfold round_up_from_4. intros Hbig.
  destruct (decide (Z.log2_up x ≤ 2)) as [Hle|Hgt].
  { replace (Z.max 2 (Z.log2_up x)) with 2 in Hbig by lia. simpl in Hbig. lia. }
  replace (Z.max 2 (Z.log2_up x)) with (Z.log2_up x) by lia.
  assert (1 < x) as Hx.
  { destruct (decide (1 < x)); [done|].
    pose proof (Z.log2_up_eqn0 x). lia. }
  pose proof (Z.log2_up_spec x Hx) as [Hlow _].
  replace (Z.log2_up x) with (Z.succ (Z.pred (Z.log2_up x))) at 1 by lia.
  rewrite Z.pow_succ_r by lia. lia.
Qed.

(** X4: a reallocation grows geometrically and wastes less than half.
    Whenever the reallocating branch returns, the new capacity is at
    least twice the old one and at least the request, and it is either 4
    or less than twice [max (2 * num_bytes) new_bytes_used]. *)
Theorem Extend_growth_bounds fuel r new_bytes_used w r' w' :
  0 ≤ bytes_used r ≤ num_bytes r →
  num_bytes r < new_bytes_used →
  new_bytes_used < 2 ^ 64 →
  Extend fuel r new_bytes_used w = Ok (r', w') →
  2 * num_bytes r ≤ num_bytes r' ∧
  new_bytes_used ≤ num_bytes r' ∧
  (num_bytes r' = 4 ∨
   num_bytes r' < 2 * Z.max (2 * num_bytes r) new_bytes_used).
Proof.
  intros Hrange Hgrow Hsize Heq.
  apply Extend_realloc_inv in Heq
    as (c & p & d & w1 & kind & w2 & Hc & _ & _ & _ & _ & ->); [|lia..].
  simpl. apply capacity_search_Ok in Hc as [Hle ->].
  - assert (Z.max (wrap (num_bytes r * 2)) new_bytes_used
            = Z.max (2 * num_bytes r) new_bytes_used) as Hmax.
    { rewrite wrap_small; [f_equal; lia|]. change (2 ^ 64) with (2 * 2 ^ 63). lia. }
    rewrite Hmax in *.
    pose proof (round_up_from_4_ge (Z.max (2 * num_bytes r) new_bytes_used)).
    pose proof (round_up_from_4_ge_4 (Z.max (2 * num_bytes r) new_bytes_used)).
    repeat split; [lia | lia |].
    destruct (decide (round_up_from_4 (Z.max (2 * num_bytes r) new_bytes_used) = 4));
      [by left | right].
    apply round_up_from_4_lt_double. lia.
  - assert (wrap (num_bytes r * 2) < 2 ^ 64)
      by (apply Z.mod_pos_bound; done). lia.
Qed.

Lemma Extend_growth_bounds_witness :
  2 * num_bytes region10 ≤ num_bytes (mkRegion CpuContext 2 NULL 32 20) ∧
  20 ≤ num_bytes (mkRegion CpuContext 2 NULL 32 20) ∧
  (num_bytes (mkRegion CpuContext 2 NULL 32 20) = 4 ∨
   num_bytes (mkRegion CpuContext 2 NULL 32 20)
     < 2 * Z.max (2 * num_bytes region10) 20).
Proof.
  apply (Extend_growth_bounds 64 region10 20 world10
           (mkRegion CpuContext 2 NULL 32 20)
           (mkWorld {[ 2 := ten_bytes ++ replicate 22 0 ]}
              [EvAllocate 32 2 NULL; EvMemoryCopy 2 1 10 MemcpyHostToHost;
               EvDeallocate 1 NULL])).
  - simpl. lia.
  - simpl. lia.
  - lia.
  - vm_compute. reflexivity.
Defined.

(** X5: the capacity search has no exit above [2^63].  When a
    reallocation is needed and [max (2 * num_bytes) new_bytes_used]
    exceeds [2^63], [i <<= 1] wraps to zero before the target is reached
    and [Extend] does not return, whatever the fuel. *)
Theorem Extend_never_returns_above_2_63 fuel r new_bytes_used w :
  0 ≤ bytes_used r ≤ num_bytes r →
  num_bytes r < new_bytes_used →
  new_bytes_used < 2 ^ 64 →
  2 ^ 63 < Z.max (2 * num_bytes r) new_bytes_used →
  Extend fuel r new_bytes_used w = Timeout.
Proof.
  intros Hrange Hgrow Hsize Hbig. rewrite Extend_realloc_unfold by lia.
  rewrite capacity_search_diverges; [done|].
  assert (0 ≤ wrap (num_bytes r * 2) < 2 ^ 64)
    by (apply Z.mod_pos_bound; done).
  split; [|lia].
  destruct (decide (2 ^ 63 < new_bytes_used)); [lia|].
  rewrite wrap_small; [lia|]. change (2 ^ 64) with (2 * 2 ^ 63). lia.
Qed.

Lemma Extend_never_returns_above_2_63_witness :
  Extend 1000 (mkRegion CpuContext 1 NULL (2 ^ 62 + 1) 10) (2 ^ 62 + 2) world10
    = Timeout.
Proof.
  apply (Extend_never_returns_above_2_63 1000
           (mkRegion CpuContext 1 NULL (2 ^ 62 + 1) 10) (2 ^ 62 + 2) world10).
  - simpl. lia.
  - simpl. lia.
  - lia.
  - simpl. lia.
Defined.

(** X6: a Region whose Context reports [kUnk] cannot be reallocated.
    Once the request exceeds the capacity (sizes within [2^63]),
    [Extend] calls [Allocate] and ends as [Allocate] does when that is
    fatal or does not return; when [Allocate] returns a block, [Extend]
    is fatal.  It never returns. *)
Theorem Extend_realloc_fatal_on_unknown_device fuel r new_bytes_used w :
  (64 ≤ fuel)%nat →
  0 ≤ bytes_used r ≤ num_bytes r →
  num_bytes r < new_bytes_used →
  Z.max (2 * num_bytes r) new_bytes_used ≤ 2 ^ 63 →
  GetDeviceType (context r) = kUnk →
  Extend fuel r new_bytes_used w =
    match Allocate (context r)
            (round_up_from_4 (Z.max (2 * num_bytes r) new_bytes_used))
            (heap w) with
    | Ok _ => Fatal
    | Fatal => Fatal
    | Timeout => Timeout
    end.
Proof.
  intros Hfuel Hrange Hgrow Hbound Hdev.
  rewrite Extend_realloc_unfold by lia.
  rewrite new_size_no_wrap by lia.
  rewrite capacity_search_returns by done. simpl.
  unfold Context_Allocate.
  destruct (Allocate _ _ _) as [[[p d] h]| |]; simpl; [|done..].
  unfold GetMemoryCopyKind. by rewrite Hdev.
Qed.

Lemma Extend_realloc_fatal_on_unknown_device_witness :
  Extend 64
    (mkRegion (mkContext kUnk (-1) kCudaStreamInvalid native_Allocate
                 native_Deallocate) 1 NULL 10 10)
    20 world10 = Fatal ∧
  Extend 64
    (mkRegion (mkContext kUnk (-1) kCudaStreamInvalid
                 (fun _ _ => Timeout) native_Deallocate) 1 NULL 10 10)
    20 world10 = Timeout.
Proof.
  split.
  - apply (Extend_realloc_fatal_on_unknown_device 64
             (mkRegion (mkContext kUnk (-1) kCudaStreamInvalid native_Allocate
                          native_Deallocate) 1 NULL 10 10)
             20 world10); (done || (simpl; lia)).
  - apply (Extend_realloc_fatal_on_unknown_device 64
             (mkRegion (mkContext kUnk (-1) kCudaStreamInvalid
                          (fun _ _ => Timeout) native_Deallocate) 1 NULL 10 10)
             20 world10); (done || (simpl; lia)).
Defined.

(** X7: [MemoryCopy] refuses [MemcpyUnknown] before it touches anything,
    and a kind that [GetMemoryCopyKind] returns is never refused: the
    copy then fails only if the transfer itself fails. *)
Theorem MemoryCopy_accepts_classified_kinds src dst kind p q count w :
  GetMemoryCopyKind src dst = Ok kind →
  kind ≠ MemcpyUnknown ∧
  MemoryCopy p q count MemcpyUnknown w = Fatal ∧
  MemoryCopy p q count kind w =
    match cudaMemcpy p q count (heap w) with
    | Some h => Ok (mkWorld h (events w ++ [EvMemoryCopy p q count kind]))
    | None => Fatal
    end.
Proof.
  intros Hkind.
  assert (kind ≠ MemcpyUnknown) as Hknown.
  { unfold GetMemoryCopyKind in Hkind.
    destruct (GetDeviceType src), (GetDeviceType dst); simpl in Hkind;
      try done; by injection Hkind as <-. }
  split; [done|]. split; [done|].
  unfold MemoryCopy, K2_CHECK. by rewrite bool_decide_eq_false_2.
Qed.

Lemma MemoryCopy_accepts_classified_kinds_witness :
  MemcpyHostToDevice ≠ MemcpyUnknown ∧
  MemoryCopy 1 1 0 MemcpyUnknown world10 = Fatal ∧
  MemoryCopy 1 1 0 MemcpyHostToDevice world10 =
    match cudaMemcpy 1 1 0 (heap world10) with
    | Some h => Ok (mkWorld h (events world10 ++
                                 [EvMemoryCopy 1 1 0 MemcpyHostToDevice]))
    | None => Fatal
    end.
Proof.
  apply (MemoryCopy_accepts_classified_kinds CpuContext CudaContext).
  reflexivity.
Defined.

(** A copy keeps every live block live. *)
Lemma cudaMemcpy_keeps_live dst src count h h' q :
  cudaMemcpy dst src count h = Some h' → is_Some (h !! q) → is_Some (h' !! q).
Proof.
  unfold cudaMemcpy. destruct (count =? 0); [by intros [= <-]|].
  destruct (h !! src) as [s|]; [|done]. destruct (h !! dst) as [b|]; [|done].
  destruct (_ && _); [|done]. intros [= <-] Hq.
  destruct (decide (dst = q)) as [->|Hne].
  - rewrite lookup_insert_eq. by eexists.
  - by rewrite lookup_insert_ne.
Qed.

Lemma cudaMemcpy_keeps_source dst src count h h' :
  cudaMemcpy dst src count h = Some h' → dst ≠ src → h' !! src = h !! src.
Proof.
  unfold cudaMemcpy. destruct (count =? 0); [by intros [= <-]|].
  destruct (h !! src) as [s|] eqn:Hs; [|done].
  destruct (h !! dst) as [b|]; [|done].
  destruct (_ && _); [|done]. intros [= <-] Hne. by rewrite lookup_insert_ne.
Qed.

(** After a reallocation that returns, the new block is live. *)
Lemma Extend_realloc_new_block_live fuel r new_bytes_used w p d blk r' w' :
  Region_valid w r →
  num_bytes r < new_bytes_used →
  Z.max (2 * num_bytes r) new_bytes_used ≤ 2 ^ 63 →
  Allocate_returns (context r)
    (round_up_from_4 (Z.max (2 * num_bytes r) new_bytes_used)) (heap w) p d blk →
  Deallocate_releases (context r) (data r) (deleter_context r) →
  Extend fuel r new_bytes_used w = Ok (r', w') →
  data r' = p ∧ deleter_context r' = d ∧ is_Some (heap w' !! p).
Proof.
  intros [Hrange Hblock] Hgrow Hbound (Halloc & Hp & Hfresh & Hlen) Hfree Heq.
  apply Extend_realloc_inv in Heq
    as (c & p' & d' & w1 & kind & w2 & Hc & Ha & _ & Hcopy & Hd & ->); [|lia..].
  rewrite new_size_no_wrap in Hc by lia.
  apply capacity_search_Ok in Hc as [_ ->]; [|lia].
  unfold Context_Allocate in Ha. rewrite Halloc in Ha. simpl in Ha.
  injection Ha as <- <- <-. simpl. split; [done|]. split; [done|].
  unfold MemoryCopy in Hcopy. destruct (K2_CHECK _); simpl in Hcopy; try done.
  simpl in Hcopy.
  destruct (cudaMemcpy _ _ _ _) as [h2|] eqn:Hh2; [|done].
  injection Hcopy as <-.
  assert (p ≠ data r) as Hne.
  { destruct Hblock as [[-> _] | (_ & old & Hold & _)]; [done | congruence]. }
  assert (is_Some (h2 !! p)) as Hlive2.
  { eapply cudaMemcpy_keeps_live; [done|]. rewrite lookup_insert_eq. by eexists. }
  unfold Context_Deallocate in Hd. simpl in Hd.
  destruct (Hfree h2) as (h3 & Hd3 & Hframe).
  { destruct Hblock as [[-> _] | (_ & old & Hold & _)]; [by left|]. right.
    rewrite (cudaMemcpy_keeps_source _ _ _ _ _ Hh2) by done.
    rewrite lookup_insert_ne by done. by eexists. }
  rewrite Hd3 in Hd. simpl in Hd. injection Hd as <-. simpl.
  by rewrite Hframe.
Qed.

(** X8: every block a Region holds is handed back with the deleter
    context it was allocated with.  A reallocating [Extend] followed by
    the destructor makes exactly four calls: [Allocate] of the new block,
    the copy, [Deallocate] of the old block with the old deleter context,
    and [Deallocate] of the new block with the deleter context its
    [Allocate] returned. *)
Theorem Extend_then_destroy_pairs_calls fuel r new_bytes_used w p d blk :
  (64 ≤ fuel)%nat →
  Region_valid w r →
  num_bytes r < new_bytes_used →
  Z.max (2 * num_bytes r) new_bytes_used ≤ 2 ^ 63 →
  GetDeviceType (context r) ≠ kUnk →
  Allocate_returns (context r)
    (round_up_from_4 (Z.max (2 * num_bytes r) new_bytes_used)) (heap w) p d blk →
  Deallocate_releases (context r) (data r) (deleter_context r) →
  Deallocate_releases (context r) p d →
  ∃ r' w' w'' kind,
    Extend fuel r new_bytes_used w = Ok (r', w') ∧
    Region_destroy r' w' = Ok w'' ∧
    events w'' = events w ++
      [EvAllocate (num_bytes r') p d;
       EvMemoryCopy p (data r) (bytes_used r) kind;
       EvDeallocate (data r) (deleter_context r);
       EvDeallocate p d].
Proof.
  intros Hfuel Hvalid Hgrow Hbound Hdev Halloc Hfree Hfree'.
  destruct (Extend_realloc_returns fuel r new_bytes_used w p d blk)
    as (kind & w' & Heq & _ & Hevents); try done.
  destruct (Extend_realloc_new_block_live _ _ _ _ _ _ _ _ _
              Hvalid Hgrow Hbound Halloc Hfree Heq) as (_ & _ & Hlive).
  destruct (Hfree' (heap w')) as (h4 & Hd4 & _); [by right|].
  eexists _, w', _, kind. split; [exact Heq|].
  unfold Region_destroy, Context_Deallocate. simpl. rewrite Hd4. simpl.
  split; [done|]. simpl. rewrite Hevents, <- app_assoc. done.
Qed.

Lemma Extend_then_destroy_pairs_calls_witness :
  ∃ r' w' w'' kind,
    Extend 64 region10 20 world10 = Ok (r', w') ∧
    Region_destroy r' w' = Ok w'' ∧
    events w'' = [] ++
      [EvAllocate (num_bytes r') 2 NULL;
       EvMemoryCopy 2 1 10 kind;
       EvDeallocate 1 NULL;
       EvDeallocate 2 NULL].
Proof.
  apply (Extend_then_destroy_pairs_calls 64 region10 20 world10 2 NULL
           (replicate 32 0)).
  - lia.
  - split; [simpl; lia|]. right. split; [done|]. by exists ten_bytes.
  - simpl; lia.
  - simpl; lia.
  - done.
  - unfold Allocate_returns. by_evaluation.
  - apply native_Deallocate_releases.
  - apply native_Deallocate_releases.
Defined.

(** ** GetContext *)

Lemma GetContext_Ok_or_Fatal IsCompatible first rest :
  GetContext IsCompatible first rest = Ok first ∨
  GetContext IsCompatible first rest = Fatal.
Proof.
  revert first. induction rest as [|second rest IH]; intros first; [by left|].
  simpl. destruct (IH second) as [-> | ->]; simpl; [|by right].
  destruct (IsCompatible first second); simpl; eauto.
Qed.

(** X9: [GetContext(a1, ..., an)] returns the Context of its first
    argument or is fatal, and it returns exactly when every argument is
    compatible with the one that follows it.  Only neighbours are
    compared. *)
Theorem GetContext_checks_neighbours IsCompatible first rest :
  (GetContext IsCompatible first rest = Ok first ∨
   GetContext IsCompatible first rest = Fatal) ∧
  (GetContext IsCompatible first rest = Ok first ↔
   ∀ (i : nat) a b, (first :: rest) !! i = Some a →
             (first :: rest) !! S i = Some b →
             IsCompatible a b = true).
Proof.
  split; [apply GetContext_Ok_or_Fatal|].
  revert first. induction rest as [|second rest IH]; intros first.
  { split; [|done]. intros _ [|i] a b; simpl; [done|]. by destruct i. }
  simpl. split.
  - intros Hok.
    destruct (GetContext_Ok_or_Fatal IsCompatible second rest) as [Hs|Hs];
      rewrite Hs in Hok; simpl in Hok; [|done].
    destruct (IsCompatible first second) eqn:Hc; simpl in Hok; [|done].
    intros [|i] a b; simpl.
    + by intros [= <-] [= <-].
    + intros Ha Hb. apply (proj1 (IH second) Hs i); done.
  - intros Hadj.
    assert (GetContext IsCompatible second rest = Ok second) as ->.
    { apply IH. intros i a b Ha Hb. by apply (Hadj (S i)). }
    simpl. by rewrite (Hadj 0%nat first second).
Qed.

(** X10: when [IsCompatible] is transitive, a [GetContext] that returns
    has found every argument compatible with the first. *)
Theorem GetContext_transitive IsCompatible first rest :
  (∀ a b c, IsCompatible a b = true → IsCompatible b c = true →
            IsCompatible a c = true) →
  GetContext IsCompatible first rest = Ok first →
  ∀ x, x ∈ rest → IsCompatible first x = true.
Proof.
  intros Htrans. revert first.
  induction rest as [|second rest IH]; intros first Hok x Hx.
  { by apply elem_of_nil in Hx. }
  simpl in Hok.
  destruct (GetContext_Ok_or_Fatal IsCompatible second rest) as [Hs|Hs];
    rewrite Hs in Hok; simpl in Hok; [|done].
  destruct (IsCompatible first second) eqn:Hc; simpl in Hok; [|done].
  apply elem_of_cons in Hx as [-> | Hx]; [done|].
  eapply Htrans; [exact Hc|]. by apply IH.
Qed.

Lemma GetContext_transitive_witness :
  GetContext same_device CudaContext [CudaContext; CudaContext] = Ok CudaContext ∧
  same_device CudaContext CudaContext = true.
Proof.
  split; [reflexivity|].
  apply (GetContext_transitive same_device CudaContext
           [CudaContext; CudaContext]).
  - unfold same_device. intros a b c Hab Hbc.
    apply bool_decide_eq_true in Hab, Hbc. apply bool_decide_eq_true. congruence.
  - reflexivity.
  - apply elem_of_cons. by left.
Defined.

(** ** The launches of Eval and Eval2 on a device stream *)

(** [NumBlocks] rounds up: the blocks cover [size], the last one is not
    empty. *)
Lemma NumBlocks_ceil size block_size :
  0 < size → 0 < block_size →
  (NumBlocks size block_size - 1) * block_size < size
    ≤ NumBlocks size block_size * block_size.
Proof.
  intros Hs Hb. unfold NumBlocks. rewrite Z.quot_div_nonneg by lia.
  pose proof (Z.div_mod (size + block_size - 1) block_size).
  pose proof (Z.mod_pos_bound (size + block_size - 1) block_size). nia.
Qed.

Lemma elem_of_eval_lambda b B t n i :
  i ∈ eval_lambda b B t n ↔ i = b * B + t ∧ i < n.
Proof.
  unfold eval_lambda. destruct (Z.ltb_spec (b * B + t) n).
  - rewrite list_elem_of_singleton. split; [intros ->; done | by intros [-> _]].
  - split; [by intros ?%elem_of_nil | intros [-> ?]; lia].
Qed.

Lemma elem_of_block_threads b B n i :
  i ∈ (t ← seqZ 0 B; eval_lambda b B t n) ↔
  ∃ t, 0 ≤ t < B ∧ i = b * B + t ∧ i < n.
Proof.
  rewrite list_elem_of_bind. split.
  - intros (t & Hi & Ht). apply elem_of_seqZ in Ht.
    apply elem_of_eval_lambda in Hi. exists t. split; [lia | done].
  - intros (t & Ht & Hi). exists t. split.
    + by apply elem_of_eval_lambda.
    + apply elem_of_seqZ. lia.
Qed.

Lemma elem_of_grid_threads G B n i :
  0 < B →
  i ∈ (b ← seqZ 0 G; t ← seqZ 0 B; eval_lambda b B t n) ↔
  0 ≤ i < n ∧ i < G * B.
Proof.
  intros HB. rewrite list_elem_of_bind. split.
  - intros (b & Hi & Hb). apply elem_of_seqZ in Hb.
    apply elem_of_block_threads in Hi as (t & Ht & -> & Hn). nia.
  - intros [Hi HG]. exists (i / B).
    pose proof (Z.div_mod i B). pose proof (Z.mod_pos_bound i B).
    assert (0 ≤ i / B) by (apply Z.div_pos; lia).
    assert (i / B < G) by (apply Z.div_lt_upper_bound; lia).
    split.
    + apply elem_of_block_threads. exists (i mod B). split; [lia|]. split; lia.
    + apply elem_of_seqZ. lia.
Qed.

Lemma NoDup_eval_lambda b B t n : NoDup (eval_lambda b B t n).
Proof.
  unfold eval_lambda. destruct (_ <? _); [apply NoDup_singleton | apply NoDup_nil_2].
Qed.

Lemma NoDup_grid_threads G B n :
  0 < B → NoDup (b ← seqZ 0 G; t ← seqZ 0 B; eval_lambda b B t n).
Proof.
  intros HB. apply NoDup_bind; [| |apply NoDup_seqZ].
  - intros b1 b2 i _ _ H1 H2.
    apply elem_of_block_threads in H1 as (t1 & Ht1 & -> & _).
    apply elem_of_block_threads in H2 as (t2 & Ht2 & Heq & _). nia.
  - intros b _. apply NoDup_bind; [| |apply NoDup_seqZ].
    + intros t1 t2 i _ _ H1 H2.
      apply elem_of_eval_lambda in H1 as [-> _].
      apply elem_of_eval_lambda in H2 as [Heq _]. lia.
    + intros t _. apply NoDup_eval_lambda.
Qed.

(** The threads of [NumBlocks n B] blocks of [B] threads call the
    closure once on each index below [n] and on nothing else. *)
Lemma grid_threads_cover n B :
  0 < n → 0 < B →
  (b ← seqZ 0 (NumBlocks n B); t ← seqZ 0 B; eval_lambda b B t n) ≡ₚ seqZ 0 n.
Proof.
  intros Hn HB. apply NoDup_Permutation.
  - by apply NoDup_grid_threads.
  - apply NoDup_seqZ.
  - intros i. rewrite elem_of_grid_threads by done. rewrite elem_of_seqZ.
    pose proof (NumBlocks_ceil n B Hn HB). lia.
Qed.

(** A row of blocks of 256 threads is a launch the runtime accepts, for
    every count that [NumBlocks] can take without overflow. *)
Lemma launch_config_ok_blocks n :
  0 < n → n + 255 ≤ 2 ^ 31 - 1 →
  launch_config_ok (NumBlocks n 256) 1 256 1 = true.
Proof.
  intros Hn Hint. pose proof (NumBlocks_ceil n 256 Hn). unfold launch_config_ok.
  destruct (Z.leb_spec 1 (NumBlocks n 256)); [|lia].
  destruct (Z.leb_spec (NumBlocks n 256) (2 ^ 31 - 1)); [done | lia].
Qed.


(** X11: on a device stream, [Eval] and its data form do not run the
    closure themselves: they return with the host state and the buffer
    as they were and one launch of [NumBlocks(n, 256)] blocks of 256
    threads added.  The threads of that launch call the closure exactly
    once on every index of [0, n) and on no other index.  [n + 255] must
    fit in an [int32_t] for [NumBlocks] to be computed without
    overflow. *)
Theorem Eval_device_launch_covers_range {S T : Type} fuel stream n
    (lambda : Z → S → S) (lambda_data : Z → S → T * S) (e : Exec S)
    (data : list T) :
  stream ≠ kCudaStreamInvalid →
  0 < n →
  n + 255 ≤ INT32_MAX →
  Eval_stream fuel stream n lambda e =
    Ok (mkExec (host_state e)
          (launched e ++ [LaunchEvalLambda stream (NumBlocks n 256) 256 n])) ∧
  Eval_data fuel stream data n lambda_data e =
    Ok (mkExec (host_state e)
          (launched e ++ [LaunchEvalLambdaData stream (NumBlocks n 256) 256 n]),
        data) ∧
  Launch_calls (LaunchEvalLambda stream (NumBlocks n 256) 256 n) ≡ₚ seqZ 0 n ∧
  Launch_calls (LaunchEvalLambdaData stream (NumBlocks n 256) 256 n)
    ≡ₚ seqZ 0 n ∧
  (NumBlocks n 256 - 1) * 256 < n ≤ NumBlocks n 256 * 256.
Proof.
  intros Hstream Hn Hint. unfold Eval_stream, Eval_data.
  destruct (Z.leb_spec n 0); [lia|].
  destruct (Z.eqb_spec stream kCudaStreamInvalid); [done|]. cbv zeta.
  rewrite launch_config_ok_blocks by (unfold INT32_MAX in Hint; lia).
  split; [done|]. split; [done|]. unfold Launch_calls.
  split; [by apply grid_threads_cover|].
  split; [by apply grid_threads_cover|].
  by apply NumBlocks_ceil.
Qed.

Lemma Eval_device_launch_covers_range_witness :
  Eval_stream 0 1 1000 traced (mkExec [] []) =
    Ok (mkExec [] [LaunchEvalLambda 1 4 256 1000]) ∧
  Launch_calls (LaunchEvalLambda 1 4 256 1000) ≡ₚ seqZ 0 1000.
Proof.
  destruct (Eval_device_launch_covers_range (T := Z) 0 1 1000 traced
              (traced_value id) (mkExec [] []) [])
    as (Hret & _ & Hcalls & _); [done | lia | vm_compute; discriminate |].
  split; [exact Hret | exact Hcalls].
Defined.








(** ** The stream-override stack, further *)

Lemma Pop_top x l s : Pop (mkOverride x (l ++ [s])) s = Ok (mkOverride x l).
Proof.
  unfold Pop. simpl. rewrite last_snoc, removelast_last.
  rewrite (bool_decide_eq_false_2 (_ ++ _ = [])) by apply snoc_not_nil.
  simpl. by rewrite bool_decide_eq_true_2.
Qed.

(** X13: [Pop] is fatal exactly when the stack is empty or its top is
    another token; otherwise it removes the top and nothing else.  It
    never changes [stream_override_]. *)
Theorem Pop_removes_only_the_top o s :
  (Pop o s = Fatal ↔ last (stack_ o) ≠ Some s) ∧
  (∀ o', Pop o s = Ok o' ↔
         stack_ o = stack_ o' ++ [s] ∧ stream_override_ o' = stream_override_ o).
Proof.
  destruct o as [x l]. simpl.
  destruct l as [|y l _] using rev_ind.
  { split; [by split|]. intros o'. split; [done|].
    intros [Hl _]. by destruct (stack_ o'). }
  rewrite last_snoc. destruct (decide (y = s)) as [->|Hne].
  - rewrite Pop_top. split; [split; [done | by intros []]|].
    intros [x' l']. simpl. split.
    + by intros [= <- <-].
    + intros [Hl ->]. by apply app_inj_tail in Hl as [-> _].
  - assert (Pop (mkOverride x (l ++ [y])) s = Fatal) as ->.
    { unfold Pop. simpl. rewrite last_snoc.
      rewrite (bool_decide_eq_false_2 (_ ++ _ = [])) by apply snoc_not_nil.
      simpl. rewrite bool_decide_eq_false_2; [done | congruence]. }
    split; [split; [congruence | done]|].
    intros o'. split; [done|]. intros [Hl _].
    apply app_inj_tail in Hl as [_ ->]. done.
Qed.

(** X14: [With] scopes nested to any depth never trip the checks of
    [Pop] and leave [stack_] exactly as it was on entry; they leave
    [stream_override_] at the token of the innermost scope. *)
Theorem nested_With_restores_stack tokens g :
  nested_With tokens g =
    Ok (mkOverride (default (stream_override_ g) (last tokens)) (stack_ g)).
Proof.
  revert g. induction tokens as [|t rest IH]; intros g.
  { by destruct g. }
  simpl. rewrite IH. simpl. unfold With_exit. simpl.
  rewrite Pop_top. rewrite last_cons. by destruct (last rest).
Qed.

(** X15: [OverrideStream] is idempotent, returns either the requested
    stream or the override, and resolves to the host sentinel exactly
    when the sentinel was requested or is itself the override. *)
Theorem OverrideStream_idempotent o s :
  OverrideStream o (OverrideStream o s) = OverrideStream o s ∧
  (OverrideStream o s = s ∨ OverrideStream o s = stream_override_ o) ∧
  (OverrideStream o s = kCudaStreamInvalid ↔
   s = kCudaStreamInvalid ∨ stream_override_ o = kCudaStreamInvalid).
Proof.
  assert (kCudaStreamInvalid ≠ 0) as Hinv by done.
  unfold OverrideStream. set (x := stream_override_ o).
  destruct (Z.eqb_spec x 0) as [H0|H0],
           (Z.eqb_spec s kCudaStreamInvalid) as [Hs|Hs]; simpl;
    try destruct (Z.eqb_spec x kCudaStreamInvalid) as [Hx|Hx]; simpl;
    try rewrite Z.eqb_refl; simpl;
    (split; [try done | split; [auto | split; [auto | intros [?|?]; congruence]]]).
  all: destruct (Z.eqb_spec s kCudaStreamInvalid); done.
Qed.

Lemma OverrideStream_sentinel_override o s :
  stream_override_ o = kCudaStreamInvalid →
  OverrideStream o s = kCudaStreamInvalid.
Proof.
  intros Ho. unfold OverrideStream. rewrite Ho.
  by destruct (Z.eqb_spec s kCudaStreamInvalid) as [->|].
Qed.

(** X16: [ParallelRunner::NewStream] hands out the host sentinel.
    Inside [With w(pr.NewStream())] every stream passed through
    [OverrideStream] resolves to the host sentinel, so an [Eval] on the
    resolved stream runs the sequential host loop and launches
    nothing. *)
Theorem With_NewStream_runs_on_host {S : Type} pr g s fuel n
    (lambda : Z → S → S) (e : Exec S) :
  (Z.to_nat n < fuel)%nat →
  OverrideStream (With_enter (NewStream pr) g).2 s = kCudaStreamInvalid ∧
  Eval_stream fuel (OverrideStream (With_enter (NewStream pr) g).2 s) n lambda e =
    Ok (mkExec (foldl (fun s i => lambda i s) (host_state e) (seqZ 0 n))
          (launched e)).
Proof.
  intros Hfuel.
  assert (OverrideStream (With_enter (NewStream pr) g).2 s = kCudaStreamInvalid)
    as ->.
  { apply OverrideStream_sentinel_override. reflexivity. }
  split; [done|]. by apply Eval_stream_host.
Qed.

Lemma With_NewStream_runs_on_host_witness :
  OverrideStream
    (With_enter (NewStream (mkParallelRunner CudaContext))
       CudaStreamOverride_init).2 1 = kCudaStreamInvalid ∧
  Eval_stream 6
    (OverrideStream
       (With_enter (NewStream (mkParallelRunner CudaContext))
          CudaStreamOverride_init).2 1) 5 traced (mkExec [] []) =
    Ok (mkExec (foldl (fun s i => traced i s) [] (seqZ 0 5)) []).
Proof.
  apply (With_NewStream_runs_on_host (mkParallelRunner CudaContext)
           CudaStreamOverride_init 1 6 5 traced (mkExec [] [])).
  simpl. lia.
Defined.

(** ** The calls of Extend, on any Context *)

(** X17: whatever the Context does, an [Extend] that returns has made
    either no call at all, or exactly three calls in this order:
    [Allocate] of the new capacity, one copy of the old [bytes_used]
    bytes from the old block to the new block, and [Deallocate] of the
    old block with the old deleter context.  The copy stays on one
    device: its kind is host-to-host on a host Context and
    device-to-device on an accelerator Context. *)
Theorem Extend_calls fuel r new_bytes_used w r' w' :
  Extend fuel r new_bytes_used w = Ok (r', w') →
  (r' = mkRegion (context r) (data r) (deleter_context r) (num_bytes r)
          (Z.max (bytes_used r) new_bytes_used) ∧ w' = w) ∨
  (∃ kind,
     events w' = events w ++
       [EvAllocate (num_bytes r') (data r') (deleter_context r');
        EvMemoryCopy (data r') (data r) (bytes_used r) kind;
        EvDeallocate (data r) (deleter_context r)] ∧
     (GetDeviceType (context r) = kCpu ∧ kind = MemcpyHostToHost ∨
      GetDeviceType (context r) = kCuda ∧ kind = MemcpyDeviceToDevice)).
Proof.
  intros Heq.
  destruct (decide (new_bytes_used ≤ bytes_used r)) as [Hnoop|Hmore].
  { left. rewrite Extend_noop in Heq by done. injection Heq as <- <-.
    split; [|done]. destruct r. simpl in *. f_equal. lia. }
  destruct (decide (new_bytes_used ≤ num_bytes r)) as [Htail|Hgrow].
  { left. rewrite Extend_claim_tail in Heq by lia. injection Heq as <- <-.
    split; [|done]. f_equal. lia. }
  right. apply Extend_realloc_inv in Heq
    as (c & p & d & w1 & kind & w2 & _ & Ha & Hk & Hcopy & Hd & ->); [|lia..].
  exists kind. simpl. split.
  - unfold Context_Allocate in Ha.
    destruct (Allocate _ _ _) as [[[p0 d0] h1]| |]; simpl in Ha; try done.
    injection Ha as <- <- <-.
    unfold MemoryCopy in Hcopy. destruct (K2_CHECK _); simpl in Hcopy; try done.
    destruct (cudaMemcpy _ _ _ _) as [h2|]; simpl in Hcopy; try done.
    injection Hcopy as <-.
    unfold Context_Deallocate in Hd. simpl in Hd.
    destruct (Deallocate _ _ _ _) as [h3| |]; simpl in Hd; try done.
    injection Hd as <-. simpl. by rewrite <- !app_assoc.
  - unfold GetMemoryCopyKind in Hk.
    destruct (GetDeviceType (context r)); simpl in Hk; try done;
      injection Hk as <-; eauto.
Qed.

Lemma Extend_calls_witness :
  (mkRegion CpuContext 2 NULL 32 20 =
     mkRegion (context region10) (data region10) (deleter_context region10)
       (num_bytes region10) (Z.max (bytes_used region10) 20) ∧
   mkWorld {[ 2 := ten_bytes ++ replicate 22 0 ]}
     [EvAllocate 32 2 NULL; EvMemoryCopy 2 1 10 MemcpyHostToHost;
      EvDeallocate 1 NULL] = world10) ∨
  (∃ kind,
     [EvAllocate 32 2 NULL; EvMemoryCopy 2 1 10 MemcpyHostToHost;
      EvDeallocate 1 NULL] = [] ++
       [EvAllocate 32 2 NULL;
        EvMemoryCopy 2 1 10 kind;
        EvDeallocate 1 NULL] ∧
     (kCpu = kCpu ∧ kind = MemcpyHostToHost ∨
      kCpu = kCuda ∧ kind = MemcpyDeviceToDevice)).
Proof.
  apply (Extend_calls 64 region10 20 world10
           (mkRegion CpuContext 2 NULL 32 20)
           (mkWorld {[ 2 := ten_bytes ++ replicate 22 0 ]}
              [EvAllocate 32 2 NULL; EvMemoryCopy 2 1 10 MemcpyHostToHost;
               EvDeallocate 1 NULL])).
  vm_compute. reflexivity.
Defined.
